(** * Burnt Beats MIDI chord processors: a shallow embedding

    The development models the two Python scripts of the repository:

    - [chord-sets-processor.py] (class [ChordSetsProcessor]): the per-track
      chord detector of [analyze_chord_midi], the tempo and key estimators,
      the category classifier, and the catalog written by
      [process_chord_sets] and queried by [get_chord_sets_by_category];
    - [chord-processor.py] (class [ChordProcessor]): the text chord
      heuristic [_is_chord_symbol], the text file processor, the directory
      walk [_analyze_chord_files] and the entry point [process_chord_zip].

    Python exceptions are modelled by an error monad whose error carries
    the message [str(e)]; Python sets by [gset]; dictionaries with a fixed
    set of keys by records, a key that may be absent by an [option] field;
    floats by canonical rationals [Qc] (the code only compares them). *)

From Stdlib Require Import ZArith QArith Qcanon String Ascii List Sorted Permutation Lia.
From stdpp Require Import base decidable option list sorting gmap strings numbers.
From stdpp Require Import pretty.

Open Scope Z_scope.

(** ** Exceptions as an error monad *)

Module Exn.

(** [Raise msg] is a raised [Exception] whose [str(e)] is [msg]. *)
Inductive result (A : Type) : Type :=
| Return (a : A)
| Raise (msg : string).
Arguments Return {A} a.
Arguments Raise {A} msg.

Definition bind {A B} (r : result A) (k : A -> result B) : result B :=
  match r with
  | Return a => k a
  | Raise msg => Raise msg
  end.

(** A [for] loop whose body may raise: the first exception leaves the loop. *)
Fixpoint for_each {S X} (body : S -> X -> result S) (xs : list X) (s : S)
  : result S :=
  match xs with
  | [] => Return s
  | x :: xs' => bind (body s x) (for_each body xs')
  end.

(** [try: ... except Exception as e: handler(str(e))]. *)
Definition try_except {A} (r : result A) (handler : string -> A) : A :=
  match r with
  | Return a => a
  | Raise msg => handler msg
  end.

End Exn.

Import Exn.

Notation "'do' x <- r ; k" := (Exn.bind r (fun x => k))
  (at level 10, x name, r at level 100, k at level 200,
   format "'[v' 'do'  x  <-  r ; '/' k ']'").

(** ** chord-sets-processor.py *)

Module ChordSetsProcessor.

(** A mido message read from a track: [time] is the delta time in ticks.
    Only the message types the analysis looks at carry their attributes. *)
Inductive msg : Type :=
| note_on (time note velocity : Z)
| note_off (time note velocity : Z)
| set_tempo (time tempo : Z)
| key_signature (time : Z) (key : string)
| other_msg (type : string) (time : Z).

Definition msg_time (m : msg) : Z :=
  match m with
  | note_on t _ _ | note_off t _ _ | set_tempo t _
  | key_signature t _ | other_msg _ t => t
  end.

(** The dictionaries appended to the three lists of the analysis. *)
Record chord_event : Type := ChordEvent {
  ce_time : Z;
  ce_notes : list Z;
  ce_track : nat
}.

Record tempo_change : Type := TempoChange {
  tc_time : Z;
  tc_bpm : Qc
}.

Record key_signature_entry : Type := KeySignature {
  ks_time : Z;
  ks_key : string
}.

(** The [analysis] dictionary.  The last three keys are added after the
    track loop, so they are absent ([None]) while the loop runs. *)
Record analysis : Type := Analysis {
  filename : string;
  length : Qc;
  ticks_per_beat : Z;
  num_tracks : nat;
  chord_progression : list chord_event;
  key_signatures : list key_signature_entry;
  tempo_changes : list tempo_change;
  note_events : list msg;
  estimated_tempo : option Qc;
  estimated_key : option string;
  chord_count : option Z
}.

(** What [analyze_chord_midi] returns: the analysis, or the dictionary of
    the [except] branch, the only one with an ["error"] key. *)
Inductive analysis_dict : Type :=
| AnalysisOk (a : analysis)
| AnalysisError (file error status : string).

Definition has_error (d : analysis_dict) : bool :=
  match d with
  | AnalysisOk _ => false
  | AnalysisError _ _ _ => true
  end.

(** [sorted(list(active_notes))] *)
Definition sorted (s : gset Z) : list Z := merge_sort Z.le (elements s).

(** The parsed file: [mid.length] is a property that may raise. *)
Record MidiFile : Type := {
  mid_length : result Qc;
  mid_ticks_per_beat : Z;
  mid_tracks : list (list msg)
}.

(** The state of the loop over one track. *)
Record track_state : Type := TrackState {
  current_time : Z;
  active_notes : gset Z;
  st_analysis : analysis
}.

Definition append_chord (a : analysis) (e : chord_event) : analysis :=
  Analysis (filename a) (length a) (ticks_per_beat a) (num_tracks a)
    (chord_progression a ++ [e]) (key_signatures a) (tempo_changes a)
    (note_events a) (estimated_tempo a) (estimated_key a) (chord_count a).

Definition append_tempo (a : analysis) (e : tempo_change) : analysis :=
  Analysis (filename a) (length a) (ticks_per_beat a) (num_tracks a)
    (chord_progression a) (key_signatures a) (tempo_changes a ++ [e])
    (note_events a) (estimated_tempo a) (estimated_key a) (chord_count a).

Definition append_key (a : analysis) (e : key_signature_entry) : analysis :=
  Analysis (filename a) (length a) (ticks_per_beat a) (num_tracks a)
    (chord_progression a) (key_signatures a ++ [e]) (tempo_changes a)
    (note_events a) (estimated_tempo a) (estimated_key a) (chord_count a).

Section Analyze.

(** [mido.tempo2bpm] (it divides by the tempo, so it may raise) and
    [round(_, 2)] are library functions on floats. *)
Variable tempo2bpm : Z -> result Qc.
Variable round2 : Qc -> Qc.

(** The body of [for msg in track]. *)
Definition track_step (track_idx : nat) (st : track_state) (m : msg)
  : result track_state :=
  let current_time := current_time st + msg_time m in
  let active_notes := active_notes st in
  let analysis := st_analysis st in
  match m with
  | note_on _ note velocity =>
      if bool_decide (0 < velocity) then
        let active_notes := {[note]} ∪ active_notes in
        if bool_decide (3 ≤ size active_notes)%nat then
          let chord_notes := sorted active_notes in
          Return (TrackState current_time active_notes
                    (append_chord analysis
                       (ChordEvent current_time chord_notes track_idx)))
        else Return (TrackState current_time active_notes analysis)
      else if bool_decide (velocity = 0) then
        Return (TrackState current_time (active_notes ∖ {[note]}) analysis)
      else Return (TrackState current_time active_notes analysis)
  | note_off _ note _ =>
      Return (TrackState current_time (active_notes ∖ {[note]}) analysis)
  | set_tempo _ tempo =>
      do bpm <- tempo2bpm tempo;
      Return (TrackState current_time active_notes
                (append_tempo analysis (TempoChange current_time (round2 bpm))))
  | key_signature _ key =>
      Return (TrackState current_time active_notes
                (append_key analysis (KeySignature current_time key)))
  | other_msg _ _ => Return (TrackState current_time active_notes analysis)
  end.

(** One iteration of [for track_idx, track in enumerate(mid.tracks)]:
    the time and the active set start afresh, the analysis is shared. *)
Definition analyze_track (track_idx : nat) (track : list msg) (a : analysis)
  : result analysis :=
  do st <- for_each (track_step track_idx) track (TrackState 0 ∅ a);
  Return (st_analysis st).

Fixpoint analyze_tracks (track_idx : nat) (tracks : list (list msg))
  (a : analysis) : result analysis :=
  match tracks with
  | [] => Return a
  | track :: rest =>
      do a' <- analyze_track track_idx track a;
      analyze_tracks (S track_idx) rest a'
  end.

Definition estimate_tempo (a : analysis) : Qc :=
  match tempo_changes a with
  | tc :: _ => tc_bpm tc
  | [] => Q2Qc 120
  end.

Definition estimate_key (a : analysis) : string :=
  match key_signatures a with
  | ks :: _ => ks_key ks
  | [] => "C"%string
  end.

Definition set_estimates (a : analysis) : analysis :=
  let tempo := estimate_tempo a in
  let key := estimate_key a in
  Analysis (filename a) (length a) (ticks_per_beat a) (num_tracks a)
    (chord_progression a) (key_signatures a) (tempo_changes a)
    (note_events a) (Some tempo) (Some key)
    (Some (Z.of_nat (List.length (chord_progression a)))).

(** [analyze_chord_midi]: [basename] is [os.path.basename(midi_path)]
    and [mid] the outcome of [mido.MidiFile(midi_path)]. *)
Definition analyze_chord_midi (basename : string) (mid : result MidiFile)
  : analysis_dict :=
  try_except
    (do mid <- mid;
     do len <- mid_length mid;
     let analysis :=
       Analysis basename len (mid_ticks_per_beat mid)
         (List.length (mid_tracks mid)) [] [] [] [] None None None in
     do analysis <- analyze_tracks 0 (mid_tracks mid) analysis;
     Return (AnalysisOk (set_estimates analysis)))
    (fun e => AnalysisError basename e "error").

End Analyze.

(** [analysis.get("chord_count", 0)] and
    [analysis.get("estimated_tempo", 120)]. *)
Definition get_chord_count (d : analysis_dict) : Z :=
  match d with
  | AnalysisOk a => default 0 (chord_count a)
  | AnalysisError _ _ _ => 0
  end.

Definition get_estimated_tempo (d : analysis_dict) : Qc :=
  match d with
  | AnalysisOk a => default (Q2Qc 120) (estimated_tempo a)
  | AnalysisError _ _ _ => Q2Qc 120
  end.

Definition categorize_chord_set (d : analysis_dict) : string :=
  let chord_count := get_chord_count d in
  let tempo := get_estimated_tempo d in
  let category :=
    if bool_decide (tempo < Q2Qc 80)%Qc then "slow-progressions"
    else if bool_decide (Q2Qc 140 < tempo)%Qc then "fast-progressions"
    else "medium-progressions" in
  let subcategory :=
    if bool_decide (8 < chord_count) then "complex"
    else if bool_decide (4 < chord_count) then "standard"
    else "simple" in
  (category ++ "/" ++ subcategory)%string.

(** *** The catalog *)

(** One entry of [catalog["chord_sets"]].  The query reads the keys
    ["category"] and ["analysis"] with [.get], so a document read back
    from disk may lack them. *)
Record chord_set_info : Type := ChordSetInfo {
  original_path : string;
  storage_path : string;
  category : option string;
  cs_analysis : option analysis_dict
}.

Record catalog : Type := Catalog {
  processed_at : string;
  total_files : nat;
  chord_sets : option (list chord_set_info);
  categories : gmap string (list chord_set_info)
}.

(** [catalog["chord_sets"].append(info)] *)
Definition append_chord_set (c : catalog) (info : chord_set_info) : catalog :=
  Catalog (processed_at c) (total_files c)
    (Some (default [] (chord_sets c) ++ [info])) (categories c).

(** [if category not in catalog["categories"]: ... = []] followed by
    [catalog["categories"][category].append(info)] *)
Definition append_category (c : catalog) (cat : string) (info : chord_set_info)
  : catalog :=
  let categories :=
    match categories c !! cat with
    | None => <[cat := []]> (categories c)
    | Some _ => categories c
    end in
  Catalog (processed_at c) (total_files c) (chord_sets c)
    (<[cat := default [] (categories !! cat) ++ [info]]> categories).

(** [self]: the three paths set by [__init__]. *)
Record processor : Type := {
  source_dir : string;
  target_dir : string;
  chord_sets_dir : string
}.

(** [Path / name] *)
Definition path_join (dir name : string) : string :=
  (dir ++ "/" ++ name)%string.

Definition init (source_dir target_dir : string) : processor :=
  {| source_dir := source_dir;
     target_dir := target_dir;
     chord_sets_dir := path_join target_dir "chord-sets" |}.

Definition catalog_path (self : processor) : string :=
  path_join (chord_sets_dir self) "chord_sets_catalog.json".

(** A file found by the two globs: [str(midi_file)] and [midi_file.name]. *)
Record midi_path : Type := {
  mp_path : string;
  mp_name : string
}.

(** [in] on strings: [sub] occurs in [s]. *)
Fixpoint str_contains (sub s : string) : bool :=
  String.prefix sub s ||
  match s with
  | EmptyString => false
  | String _ s' => str_contains sub s'
  end.

(** Truth value of a [str] argument that defaults to [None]. *)
Definition str_truthy (o : option string) : bool :=
  match o with
  | None | Some EmptyString => false
  | Some (String _ _) => true
  end.

(** [str(e)] for the [SameFileError] of [shutil], raised on two [Path]
    objects (as printed on POSIX). *)
Definition same_file_error (src dst : string) : string :=
  ("PosixPath('" ++ src ++ "') and PosixPath('" ++ dst ++
   "') are the same file")%string.

Section Catalog.

(** The contents of a file, and the file system as a map from paths to
    contents; directories are not represented, so [mkdir] leaves it
    unchanged. *)
Variable bytes : Type.

Variable tempo2bpm : Z -> result Qc.
Variable round2 : Qc -> Qc.
(** [mido.MidiFile] on the bytes of a file, [json.dump(_, f, indent=2)]
    and [json.load]. *)
Variable parse_midi : bytes -> result MidiFile.
Variable json_dump : catalog -> bytes.
Variable json_load : bytes -> result catalog.

Definition read_file (fs : gmap string bytes) (path : string) : result bytes :=
  match fs !! path with
  | Some b => Return b
  | None => Raise ("[Errno 2] No such file or directory: " ++ path)
  end.

(** [shutil.copy2(src, dst)]: a file that is there is not copied onto
    itself, [SameFileError] is raised instead. *)
Definition copy2 (fs : gmap string bytes) (src dst : string)
  : result (gmap string bytes) :=
  do b <- read_file fs src;
  if bool_decide (src = dst) then Raise (same_file_error src dst)
  else Return (<[dst := b]> fs).

(** The body of [for midi_file in midi_files]. *)
Definition process_file (self : processor)
  (st : catalog * list string * gmap string bytes) (midi_file : midi_path)
  : result (catalog * list string * gmap string bytes) :=
  let '(catalog, processed_files, fs) := st in
  let analysis :=
    analyze_chord_midi tempo2bpm round2 (mp_name midi_file)
      (do b <- read_file fs (mp_path midi_file); parse_midi b) in
  if negb (has_error analysis) then
    let category := categorize_chord_set analysis in
    let target_path :=
      path_join (path_join (chord_sets_dir self) category) (mp_name midi_file) in
    do fs <- copy2 fs (mp_path midi_file) target_path;
    let chord_set_info :=
      ChordSetInfo (mp_path midi_file) target_path (Some category)
        (Some analysis) in
    let catalog := append_chord_set catalog chord_set_info in
    let catalog := append_category catalog category chord_set_info in
    Return (catalog, processed_files ++ [mp_name midi_file], fs)
  else Return (catalog, processed_files, fs).

(** [process_chord_sets]: [cwd] is [str(Path().absolute())] and
    [midi_files] the two globs of the source directory, concatenated.
    It returns the catalog and leaves the file system changed. *)
Definition process_chord_sets (self : processor) (cwd : string)
  (midi_files : list midi_path) (fs : gmap string bytes)
  : result (catalog * gmap string bytes) :=
  let catalog := Catalog cwd (List.length midi_files) (Some []) ∅ in
  do st <- for_each (process_file self) midi_files (catalog, [], fs);
  let '(catalog, processed_files, fs) := st in
  Return (catalog, <[catalog_path self := json_dump catalog]> fs).

Definition cs_estimated_tempo (cs : chord_set_info) : Qc :=
  match cs_analysis cs with
  | Some d => get_estimated_tempo d
  | None => Q2Qc 120
  end.

(** [get_chord_sets_by_category]; a tempo range is a pair, hence true
    whenever it is given. *)
Definition get_chord_sets_by_category (self : processor)
  (category_arg : option string) (tempo_range : option (Qc * Qc))
  (fs : gmap string bytes) : result (list chord_set_info) :=
  match fs !! catalog_path self with
  | None => Return []
  | Some b =>
      do catalog <- json_load b;
      let chord_sets := default [] (chord_sets catalog) in
      let chord_sets :=
        if str_truthy category_arg then
          List.filter
            (fun cs => str_contains (default "" category_arg)
                         (default "" (category cs)))
            chord_sets
        else chord_sets in
      let chord_sets :=
        match tempo_range with
        | Some (min_tempo, max_tempo) =>
            List.filter
              (fun cs =>
                 bool_decide (min_tempo <= cs_estimated_tempo cs)%Qc &&
                 bool_decide (cs_estimated_tempo cs <= max_tempo)%Qc)
              chord_sets
        | None => chord_sets
        end in
      Return chord_sets
  end.

End Catalog.

End ChordSetsProcessor.

(** ** chord-processor.py *)

Module ChordProcessor.

#[local] Open Scope string_scope.

(** *** Python [str] methods

    A character is a code point below 256. *)

(** [str.isspace] on one character, as [split()] and [strip()] use it. *)
Definition is_space (c : ascii) : bool :=
  let n := nat_of_ascii c in
  ((9 <=? n) && (n <=? 13) || (28 <=? n) && (n <=? 32) ||
   (n =? 133) || (n =? 160))%nat.

(** [content.split('\n')] and the like: never an empty list. *)
Fixpoint split_on (sep : ascii) (s : string) : list string :=
  match s with
  | EmptyString => [EmptyString]
  | String c s' =>
      if Ascii.eqb c sep then EmptyString :: split_on sep s'
      else match split_on sep s' with
           | w :: ws => String c w :: ws
           | [] => [String c EmptyString]
           end
  end.

Fixpoint lstrip (s : string) : string :=
  match s with
  | String c s' => if is_space c then lstrip s' else s
  | EmptyString => EmptyString
  end.

Fixpoint rstrip (s : string) : string :=
  match s with
  | String c s' =>
      match rstrip s' with
      | EmptyString => if is_space c then EmptyString else String c EmptyString
      | r => String c r
      end
  | EmptyString => EmptyString
  end.

Definition strip (s : string) : string := rstrip (lstrip s).

(** [s.split()]: the maximal runs of characters that are not white space;
    [word] is the run being read. *)
Fixpoint split_from (word s : string) : list string :=
  match s with
  | EmptyString => match word with EmptyString => [] | _ => [word] end
  | String c s' =>
      if is_space c then
        match word with
        | EmptyString => split_from EmptyString s'
        | _ => word :: split_from EmptyString s'
        end
      else split_from (word ++ String c EmptyString) s'
  end.

Definition split (s : string) : list string := split_from EmptyString s.

Definition lower_char (c : ascii) : ascii :=
  let n := nat_of_ascii c in
  if ((65 <=? n) && (n <=? 90) ||
      (192 <=? n) && (n <=? 222) && negb (n =? 215))%nat
  then ascii_of_nat (n + 32)
  else c.

Fixpoint lower (s : string) : string :=
  match s with
  | EmptyString => EmptyString
  | String c s' => String (lower_char c) (lower s')
  end.

(** [content[:n]] *)
Definition str_take (n : nat) (s : string) : string := String.substring 0 n s.

(** *** The text chord heuristic *)

Definition chord_roots : list ascii :=
  ["C"; "D"; "E"; "F"; "G"; "A"; "B"]%char.

Definition modifiers : list string :=
  ["m"; "maj"; "min"; "7"; "9"; "11"; "13"; "sus"; "add"; "dim"; "aug"].

(** [c in l] for a one-character string [c]. *)
Definition char_in (c : ascii) (l : list ascii) : bool := bool_decide (c ∈ l).

Definition _is_chord_symbol (text : string) : bool :=
  match text with
  | EmptyString => false
  | String c0 rest =>
      if (String.length text <? 1)%nat then false
      else if char_in c0 chord_roots then true
      else
        match rest with
        | String c1 _ =>
            if (1 <? String.length text)%nat && char_in c0 ["b"; "#"]%char
               && char_in c1 chord_roots
            then true
            else false
        | EmptyString => false
        end
  end.

(** *** Progression records *)

(** The dictionaries built by the three leaf processors. *)
Inductive prog_data : Type :=
| MidiProg (filename : string) (chord_progression : list string) (tempo : Z)
    (time_signature : string)
| TextProg (filename : string) (chord_progressions : list (list string))
    (raw_content : string)
| JsonProg {J : Type} (filename : string) (data : J).

(** [len(d)]: the number of keys. *)
Definition dict_len (d : prog_data) : nat :=
  match d with
  | MidiProg _ _ _ _ => 5
  | TextProg _ _ _ => 4
  | JsonProg _ _ => 3
  end.

(** The truth value that [if prog_data:] tests: [None] and the empty
    dictionary are false. *)
Definition truthy (o : option prog_data) : bool :=
  match o with
  | None => false
  | Some d => negb (dict_len d =? 0)%nat
  end.

(** [try: ... except Exception as e: print(...); return None] *)
Definition or_none {A} (r : result A) : option A :=
  match r with
  | Return a => Some a
  | Raise _ => None
  end.

(** The words of one line that the heuristic accepts. *)
Definition potential_chords (line : string) : list string :=
  List.filter _is_chord_symbol (split (strip line)).

(** The loop over the lines: a line without accepted words adds nothing. *)
Fixpoint chord_patterns (lines : list string) : list (list string) :=
  match lines with
  | [] => []
  | line :: rest =>
      match potential_chords line with
      | [] => chord_patterns rest
      | pc => pc :: chord_patterns rest
      end
  end.

(** [_process_text_chords]: [name] is [file_path.name] and [read] the
    outcome of opening the file and reading it as UTF-8. *)
Definition _process_text_chords (name : string) (read : result string)
  : option prog_data :=
  or_none
    (do content <- read;
     let lines := split_on "010"%char content in
     Return (TextProg name (chord_patterns lines) (str_take 500 content))).

(** An entry met by [Path(directory).rglob("*")]. *)
Record file_entry : Type := {
  fe_name : string;
  fe_suffix : string;
  fe_is_file : bool;
  fe_read : result string
}.

Record metadata : Type := Metadata {
  file_count : nat;
  formats : list string
}.

Record chord_data : Type := ChordData {
  progressions : list prog_data;
  cd_metadata : metadata
}.

Definition str_in (s : string) (l : list string) : bool := bool_decide (s ∈ l).

Section Analyze.

(** The parts left to mido and music21 ([_process_midi_chords] up to its
    result: the chord names and the tempo) and to [json.load]. *)
Variable J : Type.
Variable midi_chords : file_entry -> result (list string * Z).
Variable json_load : string -> result J.

Definition _process_midi_chords (f : file_entry) : option prog_data :=
  or_none
    (do r <- midi_chords f;
     Return (MidiProg (fe_name f) (fst r) (snd r) "4/4")).

Definition _process_json_chords (f : file_entry) : option prog_data :=
  or_none
    (do content <- fe_read f;
     do data <- json_load content;
     Return (JsonProg (fe_name f) data)).

(** [progressions.append(prog_data); metadata["formats"].append(fmt)],
    under [if prog_data:]. *)
Definition collect (st : list prog_data * metadata) (prog : option prog_data)
  (fmt : string) : list prog_data * metadata :=
  let '(progressions, md) := st in
  match prog with
  | Some d =>
      if truthy prog then
        ((progressions ++ [d])%list,
         Metadata (file_count md) (formats md ++ [fmt])%list)
      else st
  | None => st
  end.

(** The body of [for file_path in Path(directory).rglob("*")]. *)
Definition analyze_entry (st : list prog_data * metadata) (f : file_entry)
  : list prog_data * metadata :=
  if fe_is_file f then
    let st := (fst st, Metadata (file_count (snd st) + 1) (formats (snd st))) in
    let suffix := lower (fe_suffix f) in
    if str_in suffix [".mid"; ".midi"] then
      collect st (_process_midi_chords f) "MIDI"
    else if str_in suffix [".txt"; ".chord"] then
      collect st (_process_text_chords (fe_name f) (fe_read f)) "Text"
    else if String.eqb suffix ".json" then
      collect st (_process_json_chords f) "JSON"
    else st
  else st.

Definition _analyze_chord_files (directory : list file_entry) : chord_data :=
  let '(progressions, md) :=
    fold_left analyze_entry directory ([], Metadata 0 []) in
  ChordData progressions md.

(** What the outside world decides in one run of [process_chord_zip]
    once the archive is open: creating the temporary directory,
    extracting the archive into it and walking the extracted tree;
    [Path(zip_path).stem]; opening the artifact, writing the JSON to it
    and closing it; leaving the [with] blocks of the temporary directory
    (when it was created) and of the archive, on whatever path they are
    left. *)
Record zip_run : Type := {
  extracted : result (list file_entry);
  stem : string;
  write_json : string -> chord_data -> result unit;
  cleanup : result unit
}.

(** [zipfile.ZipFile(zip_path, 'r')]: the archive does not open, and no
    [with] block is entered, or it opens and the run goes on. *)
Inductive ZipFile : Type :=
| OpenFailed (error : string)
| Opened (run : zip_run).

Coercion Opened : zip_run >-> ZipFile.

(** The dictionary returned by [process_chord_zip]. *)
Inductive response : Type :=
| Success (chord_set_name output_path : string) (chord_count : nat)
    (md : metadata)
| Failure (error : string).

Definition success (r : response) : bool :=
  match r with
  | Success _ _ _ _ => true
  | Failure _ => false
  end.

(** [with ...: body]: the exit runs whether the body returned or raised,
    and what the exit raises replaces the outcome of the body. *)
Definition with_exit {A} (exit : result unit) (body : result A) : result A :=
  match exit with
  | Return _ => body
  | Raise e => Raise e
  end.

Definition process_chord_zip (chord_sets_dir : string) (zip_path : ZipFile)
  : response :=
  try_except
    (match zip_path with
     | OpenFailed e => Raise e
     | Opened run =>
       with_exit (cleanup run)
         (do temp_dir <- extracted run;
          let chord_data := _analyze_chord_files temp_dir in
          let chord_set_name := stem run in
          let output_path :=
            chord_sets_dir ++ "/" ++ chord_set_name ++ "_processed.json" in
          do _w <- write_json run output_path chord_data;
          Return (Success chord_set_name output_path
                    (List.length (progressions chord_data))
                    (cd_metadata chord_data)))
     end)
    (fun e => Failure e).

End Analyze.

End ChordProcessor.

(** ** Reference notions for the chord detector

    These are stated over the list of messages of a track, without the
    loop's state; the theorems below relate the loop to them. *)

Module Detector.

Import ChordSetsProcessor.

(** A note-on with positive velocity for pitch [p]. *)
Definition sounds (p : Z) (m : msg) : Prop :=
  ∃ t v, m = note_on t p v ∧ 0 < v.

(** A note-off, or a note-on with velocity zero, for pitch [p]. *)
Definition silences (p : Z) (m : msg) : Prop :=
  (∃ t v, m = note_off t p v) ∨ (∃ t, m = note_on t p 0).

Definition positive_note_on (m : msg) : Prop := ∃ p, sounds p m.
Definition releasing (m : msg) : Prop := ∃ p, silences p m.

(** Pitch [p] has an unmatched trailing note-on in [msgs]: some message
    sounds it and no later message silences it. *)
Definition unmatched_note_on (p : Z) (msgs : list msg) : Prop :=
  ∃ pre m post,
    msgs = pre ++ m :: post ∧ sounds p m ∧ ∀ m', m' ∈ post → ¬ silences p m'.

(** What one message does to pitch [p]: [Some true] sounds it,
    [Some false] silences it, [None] leaves it as it was. *)
Definition effect (p : Z) (m : msg) : option bool :=
  match m with
  | note_on _ n v =>
      if decide (n = p) then
        if decide (0 < v) then Some true
        else if decide (v = 0) then Some false
        else None
      else None
  | note_off _ n _ => if decide (n = p) then Some false else None
  | _ => None
  end.

(** The effect of the last message of [msgs] that has one on [p]. *)
Fixpoint last_effect (p : Z) (msgs : list msg) : option bool :=
  match msgs with
  | [] => None
  | m :: rest =>
      match last_effect p rest with
      | Some b => Some b
      | None => effect p m
      end
  end.

(** The pitches named by the note-on messages of [msgs]. *)
Fixpoint pitches (msgs : list msg) : gset Z :=
  match msgs with
  | [] => ∅
  | note_on _ n _ :: rest => {[n]} ∪ pitches rest
  | _ :: rest => pitches rest
  end.

(** The pitches sounding after [msgs], read off the messages alone. *)
Definition sounding (msgs : list msg) : gset Z :=
  filter (λ p, last_effect p msgs = Some true) (pitches msgs).

(** The absolute time after [msgs]. *)
Definition elapsed (msgs : list msg) : Z :=
  fold_left (λ t m, t + msg_time m) msgs 0.

(** The chord events due at position [i] of a track: one, when the
    message there is a positive note-on and at least three pitches sound
    once it has been heard. *)
Definition chord_at (track_idx : nat) (track : list msg) (i : nat)
  : list chord_event :=
  let heard := take (S i) track in
  match track !! i with
  | Some (note_on _ _ v) =>
      if decide (0 < v ∧ (3 ≤ size (sounding heard))%nat)
      then [ChordEvent (elapsed heard) (sorted (sounding heard)) track_idx]
      else []
  | _ => []
  end.

Definition chords_of_track (track_idx : nat) (track : list msg)
  : list chord_event :=
  flat_map (chord_at track_idx track) (seq 0 (List.length track)).

(** The invariant of a chord event. *)
Definition chord_event_ok (e : chord_event) : Prop :=
  StronglySorted Z.lt (ce_notes e) ∧ NoDup (ce_notes e) ∧
  (3 ≤ List.length (ce_notes e))%nat.

(** No tempo message of the track makes [tempo2bpm] raise. *)
Definition tempos_ok (tempo2bpm : Z -> result Qc) (track : list msg) : Prop :=
  ∀ t tempo, set_tempo t tempo ∈ track → ∃ bpm, tempo2bpm tempo = Return bpm.

End Detector.

(** ** Reference notions for the classifier and the catalog *)

Module Classifier.

Import ChordSetsProcessor.

(** An analysis of which only the two keys read by the classifier matter. *)
Definition analysis_with (tempo : Qc) (chord_count : Z) : analysis :=
  Analysis "" (Q2Qc 0) 0 0 [] [] [] [] (Some tempo) None (Some chord_count).

(** The classifier as a function of the tempo and the chord count. *)
Definition classify (tempo : Qc) (chord_count : Z) : string :=
  categorize_chord_set (AnalysisOk (analysis_with tempo chord_count)).

(** The test of the tempo filter: both bounds included. *)
Definition in_tempo_range (min_tempo max_tempo : Qc) (cs : chord_set_info)
  : Prop :=
  (min_tempo <= cs_estimated_tempo cs)%Qc ∧
  (cs_estimated_tempo cs <= max_tempo)%Qc.

End Classifier.

(** ** A small concrete world, to run the definitions on *)

Module World.

Import ChordSetsProcessor.

(** File contents: a MIDI file stands for what mido reads from it, a JSON
    file for the document it holds. *)
Inductive file : Type :=
| MidiBytes (mid : MidiFile)
| JsonBytes (doc : catalog)
| Garbage.

Definition tempo2bpm (tempo : Z) : result Qc :=
  if bool_decide (tempo = 0) then Raise "float division by zero"
  else Return (Q2Qc (60000000 # Z.to_pos tempo)).

Definition round2 (bpm : Qc) : Qc := bpm.

Definition parse_midi (b : file) : result MidiFile :=
  match b with
  | MidiBytes mid => Return mid
  | _ => Raise "MThd not found. Probably not a MIDI file"
  end.

Definition json_dump (c : catalog) : file := JsonBytes c.

Definition json_load (b : file) : result catalog :=
  match b with
  | JsonBytes c => Return c
  | _ => Raise "Expecting value: line 1 column 1 (char 0)"
  end.

(** A C major triad with a fourth note on top, at 100 bpm. *)
Definition triad : list msg :=
  [set_tempo 0 600000; note_on 0 60 64; note_on 0 64 64; note_on 0 67 64;
   note_on 480 72 64; note_off 480 60 0; note_on 0 64 0; note_off 0 67 0;
   note_off 0 72 0].

Definition triad_mid : MidiFile :=
  {| mid_length := Return (Q2Qc (6 # 5));
     mid_ticks_per_beat := 480;
     mid_tracks := [triad] |}.

Definition self : processor := init "attached_assets" "storage/midi/templates".

Definition fs0 : gmap string file :=
  {[ "attached_assets/triad.mid"%string := MidiBytes triad_mid;
     "attached_assets/broken.mid"%string := Garbage ]}.

Definition midi_files : list midi_path :=
  [ {| mp_path := "attached_assets/triad.mid"; mp_name := "triad.mid" |};
    {| mp_path := "attached_assets/broken.mid"; mp_name := "broken.mid" |} ].

Definition processed : result (catalog * gmap string file) :=
  process_chord_sets file tempo2bpm round2 parse_midi json_dump
    self "/home/runner" midi_files fs0.

(** The value a computation returned, [d] if it raised. *)
Definition value_of {A} (r : result A) (d : A) : A :=
  match r with
  | Return a => a
  | Raise _ => d
  end.

Definition blank : analysis :=
  Analysis "triad.mid" (Q2Qc (6 # 5)) 480 1 [] [] [] [] None None None.

Definition start : track_state := TrackState 0 ∅ blank.

(** The loop over the first track of a file. *)
Definition triad_run : list msg -> track_state -> result track_state :=
  for_each (track_step tempo2bpm round2 0).

Definition track_end : track_state := value_of (triad_run triad start) start.

Definition triad_analysis : analysis :=
  match analyze_chord_midi tempo2bpm round2 "triad.mid" (Return triad_mid) with
  | AnalysisOk a => a
  | AnalysisError _ _ _ => blank
  end.

Definition catalog_out : catalog :=
  (value_of processed (Catalog "" 0 None ∅, ∅)).1.

Definition fs_out : gmap string file :=
  (value_of processed (Catalog "" 0 None ∅, ∅)).2.

End World.

Module Archive.

Import ChordProcessor.

#[local] Open Scope string_scope.

(** A text file without a chord symbol. *)
Definition notes : string := "hello world

no chords here
".

Definition notes_txt : file_entry :=
  {| fe_name := "notes.txt";
     fe_suffix := ".TXT";
     fe_is_file := true;
     fe_read := Return notes |}.

(** No MIDI or JSON reader is needed for it. *)
Definition midi_chords (f : file_entry) : result (list string * Z) :=
  Raise "MThd not found. Probably not a MIDI file".

Definition json_load (s : string) : result unit :=
  Raise "Expecting value: line 1 column 1 (char 0)".

(** An archive [set.zip] that holds this file only; every step goes
    through. *)
Definition run : zip_run :=
  {| extracted := Return [notes_txt];
     stem := "set";
     write_json := λ _ _, Return tt;
     cleanup := Return tt |}.

End Archive.

(** ** The rest of chord-sets-processor.py *)

Module Cli.

Import ChordSetsProcessor.

(** The nine directories that [process_chord_sets] creates before it looks
    at any file. *)
Definition categories : list string :=
  [ "slow-progressions/simple";
    "slow-progressions/standard";
    "slow-progressions/complex";
    "medium-progressions/simple";
    "medium-progressions/standard";
    "medium-progressions/complex";
    "fast-progressions/simple";
    "fast-progressions/standard";
    "fast-progressions/complex" ]%string.

(** The arguments that [argparse] hands to [main]: two flags, a string
    and two integers that are [None] when the option is not given. *)
Record args : Type := Args {
  arg_process : bool;
  arg_list : bool;
  arg_category : option string;
  arg_tempo_min : option Z;
  arg_tempo_max : option Z
}.

(** The truth value of an optional integer: [None] and [0] are false. *)
Definition int_truthy (o : option Z) : bool :=
  match o with
  | None => false
  | Some z => negb (z =? 0)
  end.

Definition int_to_Qc (z : Z) : Qc := Q2Qc (inject_Z z).

(** [tempo_range] as the [--list] branch of [main] computes it. *)
Definition tempo_range_of (a : args) : option (Qc * Qc) :=
  if int_truthy (arg_tempo_min a) && int_truthy (arg_tempo_max a) then
    Some (int_to_Qc (default 0 (arg_tempo_min a)),
          int_to_Qc (default 0 (arg_tempo_max a)))
  else None.

(** What [main] goes on to print: the catalog of a processing run, the
    chord sets of a listing, or the help text. *)
Inductive report (bytes : Type) : Type :=
| Processed (c : catalog) (fs : gmap string bytes)
| Listed (chord_sets : list chord_set_info)
| Help.
Arguments Processed {bytes} c fs.
Arguments Listed {bytes} chord_sets.
Arguments Help {bytes}.

Section Main.

Variable bytes : Type.
Variable tempo2bpm : Z -> result Qc.
Variable round2 : Qc -> Qc.
Variable parse_midi : bytes -> result MidiFile.
Variable json_dump : catalog -> bytes.
Variable json_load : bytes -> result catalog.

(** [main], on the processor with the default directories; [cwd] and
    [midi_files] are what the processing run finds on disk. *)
Definition main (a : args) (cwd : string) (midi_files : list midi_path)
  (fs : gmap string bytes) : result (report bytes) :=
  let processor := init "attached_assets" "storage/midi/templates" in
  if arg_process a then
    do r <- process_chord_sets bytes tempo2bpm round2 parse_midi json_dump
              processor cwd midi_files fs;
    Return (Processed r.1 r.2)
  else if arg_list a then
    let tempo_range := tempo_range_of a in
    do chord_sets <- get_chord_sets_by_category bytes json_load processor
                       (arg_category a) tempo_range fs;
    Return (Listed chord_sets)
  else Return Help.

End Main.

End Cli.

(** ** The rest of chord-processor.py *)

Module Midi.

Import ChordSetsProcessor.

(** [int(x)] on a float: the fraction is dropped. *)
Definition int (x : Qc) : Z := Z.quot (Qnum x) (Z.pos (Qden x)).

Section ExtractTempo.

Variable tempo2bpm : Z -> result Qc.

(** The inner loop of [_extract_tempo]: [Some r] when it reaches the
    [return], [None] when it runs to the end of the track. *)
Fixpoint extract_track (track : list msg) : option (result Z) :=
  match track with
  | [] => None
  | set_tempo _ tempo :: _ =>
      Some (do bpm <- tempo2bpm tempo; Return (int bpm))
  | _ :: rest => extract_track rest
  end.

(** [_extract_tempo], on [mid.tracks]. *)
Fixpoint _extract_tempo (tracks : list (list msg)) : result Z :=
  match tracks with
  | [] => Return 120
  | track :: rest =>
      match extract_track track with
      | Some r => r
      | None => _extract_tempo rest
      end
  end.

End ExtractTempo.

(** What [generate_midi_from_chords] appends to the part. *)
Inductive element (chord : Type) : Type :=
| MetronomeMark (number : Z)
| ChordElement (c : chord) (quarterLength : Z).
Arguments MetronomeMark {chord} number.
Arguments ChordElement {chord} c quarterLength.

(** The truth value of a path that defaults to [None]. *)
Definition path_truthy (o : option string) : bool :=
  match o with
  | None | Some EmptyString => false
  | Some (String _ _) => true
  end.

(** The path used when none is given: it carries [len(chord_progression)]. *)
Definition default_path (chord_progression : list string) : string :=
  ("./storage/midi/generated/chord_progression_" ++
   pretty (List.length chord_progression) ++ "_chords.mid")%string.

Section Generate.

(** music21's chords and [chord.Chord(symbol)], which raises on a symbol it
    cannot resolve; the bytes that [score.write('midi', ...)] produces for
    a part, and whether the write to a path goes through. *)
Variable chord : Type.
Variable Chord : string -> result chord.
Variable bytes : Type.
Variable render : list (element chord) -> bytes.
Variable writable : string -> result unit.
Variable makedirs : result unit.

(** The loop over the chord symbols: a symbol that raises is skipped. *)
Fixpoint add_chords (part : list (element chord)) (chord_progression : list string)
  : list (element chord) :=
  match chord_progression with
  | [] => part
  | chord_symbol :: rest =>
      match Chord chord_symbol with
      | Return chord_obj => add_chords (part ++ [ChordElement chord_obj 4]) rest
      | Raise _ => add_chords part rest
      end
  end.

(** [generate_midi_from_chords]: the returned path, and the file system
    after the call. *)
Definition generate_midi_from_chords (chord_progression : list string)
  (tempo : Z) (output_path : option string) (fs : gmap string bytes)
  : option string * gmap string bytes :=
  let part := [MetronomeMark tempo] in
  let part := add_chords part chord_progression in
  let located :=
    if path_truthy output_path then Return (default "" output_path)
    else do _m <- makedirs; Return (default_path chord_progression) in
  match (do output_path <- located;
         do _w <- writable output_path;
         Return output_path) with
  | Return output_path => (Some output_path, <[output_path := render part]> fs)
  | Raise _ => (None, fs)
  end.

End Generate.

End Midi.

(** ** Reference notions for whole files *)

Module FileSpec.

Import ChordSetsProcessor Detector.

Definition is_positive_note_on (m : msg) : bool :=
  match m with
  | note_on _ _ v => bool_decide (0 < v)
  | _ => false
  end.

(** The number of note-on messages with positive velocity. *)
Definition positive_count (track : list msg) : nat :=
  List.length (List.filter is_positive_note_on track).

(** The chord events of all tracks, the first of which has index [first]. *)
Fixpoint chords_of_tracks (first : nat) (tracks : list (list msg))
  : list chord_event :=
  match tracks with
  | [] => []
  | track :: rest => chords_of_track first track ++ chords_of_tracks (S first) rest
  end.

Definition tempo_of (m : msg) : option Z :=
  match m with
  | set_tempo _ tempo => Some tempo
  | _ => None
  end.

Definition key_of (m : msg) : option string :=
  match m with
  | key_signature _ key => Some key
  | _ => None
  end.

(** The tempo of the first tempo message, and the key of the first key
    signature, in the order of the file: track after track. *)
Definition first_tempo (tracks : list (list msg)) : option Z :=
  head (omap tempo_of (concat tracks)).

Definition first_key (tracks : list (list msg)) : option string :=
  head (omap key_of (concat tracks)).

(** A bound on the chord events of a file: a track gives none before its
    third positive note-on. *)
Fixpoint chord_bound (tracks : list (list msg)) : nat :=
  match tracks with
  | [] => 0
  | track :: rest => (positive_count track - 2) + chord_bound rest
  end.

(** The order of the chord progression: by track, and by time within a
    track. *)
Definition chord_before (e e' : chord_event) : Prop :=
  (ce_track e < ce_track e')%nat ∨
  (ce_track e = ce_track e' ∧ ce_time e <= ce_time e').

(** No message of the file has a negative delta time. *)
Definition times_ok (tracks : list (list msg)) : Prop :=
  Forall (Forall (λ m, 0 <= msg_time m)) tracks.

(** [sub] occurs in [s]. *)
Definition occurs_in (sub s : string) : Prop :=
  ∃ pre post, s = (pre ++ sub ++ post)%string.

End FileSpec.

(** ** Reference notions for the catalog *)

Module CatalogSpec.

Import ChordSetsProcessor.

(** The record that the processing loop builds for a file [f] whose
    analysis is [d]. *)
Definition record_of (self : processor) (f : midi_path) (d : analysis_dict)
  : chord_set_info :=
  let cat := categorize_chord_set d in
  ChordSetInfo (mp_path f)
    (path_join (path_join (chord_sets_dir self) cat) (mp_name f))
    (Some cat) (Some d).

(** A record built for one of [files], from an analysis without error. *)
Definition produced_from (self : processor) (files : list midi_path)
  (r : chord_set_info) : Prop :=
  ∃ f d, f ∈ files ∧ has_error d = false ∧ r = record_of self f d.

(** The records filed under category [k]. *)
Definition in_category (k : string) (records : list chord_set_info)
  : list chord_set_info :=
  List.filter (λ r, bool_decide (category r = Some k)) records.

(** The entry of the ["categories"] index for [k]: absent while no record
    has this category. *)
Definition index_entry (k : string) (records : list chord_set_info)
  : option (list chord_set_info) :=
  match in_category k records with
  | [] => None
  | l => Some l
  end.

(** The category of a record contains [sub]. *)
Definition category_has (sub : string) (r : chord_set_info) : Prop :=
  FileSpec.occurs_in sub (default ""%string (category r)).

End CatalogSpec.

(** ** Reference notions for the archive walk and the generator *)

Module WalkSpec.

Import ChordProcessor.

(** The string has a white space character. *)
Fixpoint has_space (s : string) : bool :=
  match s with
  | EmptyString => false
  | String c s' => is_space c || has_space s'
  end.

(** What a chord word is: accepted by the heuristic, not empty, and free of
    white space. *)
Definition chord_word (w : string) : Prop :=
  _is_chord_symbol w = true ∧ w ≠ ""%string ∧ has_space w = false.

(** The format that goes with a record. *)
Definition format_of (d : prog_data) : string :=
  match d with
  | MidiProg _ _ _ _ => "MIDI"
  | TextProg _ _ _ => "Text"
  | JsonProg _ _ => "JSON"
  end.

Section Entry.

Variable J : Type.
Variable midi_chords : file_entry -> result (list string * Z).
Variable json_load : string -> result J.

(** The record that one entry of the walk contributes, if any: nothing for
    a directory, for a suffix that is not known, or for a file whose
    processor fails. *)
Definition entry_record (f : file_entry) : option prog_data :=
  if fe_is_file f then
    let suffix := lower (fe_suffix f) in
    if str_in suffix [".mid"; ".midi"]%string then
      _process_midi_chords midi_chords f
    else if str_in suffix [".txt"; ".chord"]%string then
      _process_text_chords (fe_name f) (fe_read f)
    else if String.eqb suffix ".json" then
      _process_json_chords J json_load f
    else None
  else None.

End Entry.

(** The chord that a symbol resolves to, with the whole-note length. *)
Definition resolved {chord : Type} (Chord : string -> result chord)
  (chord_symbol : string) : option (Midi.element chord) :=
  match Chord chord_symbol with
  | Return c => Some (Midi.ChordElement c 4)
  | Raise _ => None
  end.

End WalkSpec.

(** * Proofs *)

Import ChordSetsProcessor Detector Classifier.

(** * Properties of the error monad *)

Section ExnFacts.

Context {S X : Type} (body : S -> X -> result S).

Lemma for_each_app (xs ys : list X) (s : S) :
  for_each body (xs ++ ys) s = Exn.bind (for_each body xs s) (for_each body ys).
Proof.
  revert s; induction xs as [|x xs IH]; intros s; simpl; [done|].
  destruct (body s x) as [s'|e]; simpl; [apply IH | done].
Qed.

Lemma for_each_snoc (xs : list X) (x : X) (s s' : S) :
  for_each body xs s = Return s' ->
  for_each body (xs ++ [x]) s = body s' x.
Proof.
  intros H. rewrite for_each_app, H. simpl. by destruct (body s' x).
Qed.

Lemma Return_inj (x y : S) : @Return S x = Return y -> x = y.
Proof. by intros [= ->]. Qed.

(** A loop whose body never raises on the elements it meets returns. *)
Lemma for_each_returns (xs : list X) (s : S) :
  (∀ s x, x ∈ xs → ∃ s', body s x = Return s') →
  ∃ s', for_each body xs s = Return s'.
Proof.
  revert s; induction xs as [|x xs IH]; intros s Hok; simpl; [by eexists|].
  destruct (Hok s x) as [s1 ->]; [left|]. simpl.
  apply IH. intros s2 y Hy. apply Hok. by right.
Qed.

(** An invariant of the body is an invariant of the loop. *)
Lemma for_each_invariant (P : S -> Prop) (xs : list X) (s s' : S) :
  (∀ s x s', P s -> body s x = Return s' -> P s') ->
  P s -> for_each body xs s = Return s' -> P s'.
Proof.
  intros Hstep. revert s; induction xs as [|x xs IH]; intros s Hs; simpl.
  - by intros [= <-].
  - destruct (body s x) as [s1|e] eqn:E; simpl; [|done]. eauto.
Qed.

End ExnFacts.

(** * The sorted list of a set *)

Lemma StronglySorted_le_NoDup_lt (l : list Z) :
  StronglySorted Z.le l -> NoDup l -> StronglySorted Z.lt l.
Proof.
  induction 1 as [|x l Hl IH Hx]; intros Hnd; [constructor|].
  apply list.NoDup_cons in Hnd as [Hnotin Hnd].
  constructor; [by apply IH|].
  rewrite list.Forall_forall in Hx |- *. intros y Hy.
  assert (x ≠ y) by (intros ->; by apply Hnotin).
  specialize (Hx y Hy). lia.
Qed.

Lemma sorted_Permutation (s : gset Z) : sorted s ≡ₚ elements s.
Proof. apply merge_sort_Permutation. Qed.

Lemma sorted_NoDup (s : gset Z) : NoDup (sorted s).
Proof. rewrite sorted_Permutation. apply NoDup_elements. Qed.

Lemma sorted_ascending (s : gset Z) : StronglySorted Z.lt (sorted s).
Proof.
  apply StronglySorted_le_NoDup_lt; [|apply sorted_NoDup].
  apply StronglySorted_merge_sort; apply _.
Qed.

Lemma sorted_length (s : gset Z) : List.length (sorted s) = size s.
Proof. unfold sorted. by rewrite merge_sort_Permutation. Qed.

Lemma elem_of_sorted (s : gset Z) (x : Z) : x ∈ sorted s ↔ x ∈ s.
Proof. rewrite sorted_Permutation. apply elem_of_elements. Qed.

(** * The effect of messages on one pitch *)

Lemma effect_sounds (p : Z) (m : msg) : effect p m = Some true ↔ sounds p m.
Proof.
  unfold effect, sounds. split.
  - destruct m; repeat case_decide; intros [=]; subst; eauto.
  - intros (t & v & -> & Hv). by rewrite !decide_True.
Qed.

Lemma effect_silences (p : Z) (m : msg) : effect p m = Some false ↔ silences p m.
Proof.
  unfold effect, silences. split.
  - destruct m; repeat case_decide; intros [=]; subst; eauto.
  - intros [(t & v & ->)|(t & ->)]; repeat case_decide; done || lia.
Qed.

Lemma last_effect_app (p : Z) (xs ys : list msg) :
  last_effect p (xs ++ ys) =
  match last_effect p ys with
  | Some b => Some b
  | None => last_effect p xs
  end.
Proof.
  induction xs as [|x xs IH]; simpl.
  - by destruct (last_effect p ys).
  - rewrite IH. by destruct (last_effect p ys).
Qed.

Lemma last_effect_None (p : Z) (msgs : list msg) :
  last_effect p msgs = None ↔ ∀ m, m ∈ msgs → effect p m = None.
Proof.
  induction msgs as [|m' msgs IH]; simpl.
  - split; [|done]. intros _ m Hm. by apply elem_of_nil in Hm.
  - destruct (last_effect p msgs) as [b|] eqn:E.
    + split; [done|]. intros H.
      assert (Some b = None) as [=]. apply IH. intros m Hm. apply H. by right.
    + split.
      * intros Hm' m [->|Hm]%elem_of_cons; [done|]. by apply IH.
      * intros H. apply H. left.
Qed.

(** Without a silencing message, the last effect is not a silencing one. *)
Lemma last_effect_not_silenced (p : Z) (msgs : list msg) :
  (∀ m, m ∈ msgs → ¬ silences p m) → last_effect p msgs ≠ Some false.
Proof.
  induction msgs as [|m' msgs IH]; simpl; intros H; [done|].
  destruct (last_effect p msgs) as [b|] eqn:E.
  - apply IH. intros m Hm. apply H. by right.
  - rewrite effect_silences. apply H. left.
Qed.

Lemma last_effect_unmatched (p : Z) (msgs : list msg) :
  last_effect p msgs = Some true ↔ unmatched_note_on p msgs.
Proof.
  split.
  - induction msgs as [|m msgs IH]; simpl; [done|].
    destruct (last_effect p msgs) as [b|] eqn:E.
    + intros [= ->]. destruct IH as (pre & m' & post & -> & Hs & Hpost); [done|].
      by exists (m :: pre), m', post.
    + intros Hm. exists [], m, msgs. split; [done|]. split.
      * by apply effect_sounds.
      * intros m' Hm' Hsil%effect_silences.
        rewrite last_effect_None in E. by rewrite (E m' Hm') in Hsil.
  - intros (pre & m & post & -> & Hs%effect_sounds & Hpost).
    rewrite last_effect_app. simpl. rewrite Hs.
    pose proof (last_effect_not_silenced p post Hpost).
    by destruct (last_effect p post) as [[]|].
Qed.

Lemma last_effect_pitches (p : Z) (msgs : list msg) :
  last_effect p msgs = Some true → p ∈ pitches msgs.
Proof.
  induction msgs as [|m msgs IH]; simpl; [done|].
  destruct (last_effect p msgs) as [b|].
  - intros [= ->]. destruct m; set_solver.
  - intros (t & v & -> & _)%effect_sounds. set_solver.
Qed.

Lemma elem_of_sounding (p : Z) (msgs : list msg) :
  p ∈ sounding msgs ↔ last_effect p msgs = Some true.
Proof.
  unfold sounding. rewrite elem_of_filter. split; [by intros [? _]|].
  intros H. split; [done|]. by apply last_effect_pitches.
Qed.

Lemma elapsed_snoc (msgs : list msg) (m : msg) :
  elapsed (msgs ++ [m]) = elapsed msgs + msg_time m.
Proof. unfold elapsed. by rewrite fold_left_app. Qed.

(** * The loop over one track *)

Section Track.

Variable tempo2bpm : Z -> result Qc.
Variable round2 : Qc -> Qc.
Variable track_idx : nat.

Abbreviation step := (track_step tempo2bpm round2 track_idx).
Abbreviation run := (for_each (track_step tempo2bpm round2 track_idx)).

(** Case analysis on one iteration that returned. *)
Ltac step_cases H :=
  unfold track_step in H;
  match type of H with
  | context [match ?m with note_on _ _ _ => _ | _ => _ end] => destruct m
  end;
  repeat case_bool_decide;
  try match type of H with
      | context [tempo2bpm ?t] => destruct (tempo2bpm t); simpl in H
      end;
  try discriminate H;
  apply Return_inj in H; subst; simpl.

Lemma track_step_time (st st' : track_state) (m : msg) :
  step st m = Return st' → current_time st' = current_time st + msg_time m.
Proof. intros H. by step_cases H. Qed.

Lemma track_step_active (st st' : track_state) (m : msg) (p : Z) :
  step st m = Return st' →
  p ∈ active_notes st' ↔
  match effect p m with
  | Some b => b = true
  | None => p ∈ active_notes st
  end.
Proof.
  intros H. step_cases H; unfold effect; repeat case_decide; subst;
    rewrite ?elem_of_union, ?elem_of_difference, ?elem_of_singleton;
    intuition (congruence || lia).
Qed.

(** What one iteration appends to the chord progression, in terms of the
    state it leaves. *)
Lemma track_step_chords (st st' : track_state) (m : msg) :
  step st m = Return st' →
  chord_progression (st_analysis st') =
  chord_progression (st_analysis st) ++
  match m with
  | note_on _ _ v =>
      if decide (0 < v ∧ (3 ≤ size (active_notes st'))%nat)
      then [ChordEvent (current_time st') (sorted (active_notes st')) track_idx]
      else []
  | _ => []
  end.
Proof.
  intros H. step_cases H; try case_decide; rewrite ?app_nil_r;
    done || (exfalso; tauto).
Qed.

Lemma track_step_returns (st : track_state) (m : msg) :
  (∀ t tempo, m = set_tempo t tempo → ∃ bpm, tempo2bpm tempo = Return bpm) →
  ∃ st', step st m = Return st'.
Proof.
  intros H. unfold track_step. destruct m; repeat case_bool_decide; eauto.
  destruct (H _ _ eq_refl) as [bpm ->]. simpl. eauto.
Qed.

Lemma run_returns (track : list msg) (st : track_state) :
  tempos_ok tempo2bpm track → ∃ st', run track st = Return st'.
Proof.
  intros H. apply for_each_returns. intros s m Hm.
  apply track_step_returns. intros t tempo ->. by eapply H.
Qed.

Lemma run_active (track : list msg) (st st' : track_state) (p : Z) :
  run track st = Return st' →
  p ∈ active_notes st' ↔
  match last_effect p track with
  | Some b => b = true
  | None => p ∈ active_notes st
  end.
Proof.
  revert st; induction track as [|m track IH]; intros st; simpl.
  - by intros [= <-].
  - destruct (step st m) as [st1|e] eqn:E; simpl; [|done].
    intros Hrun. rewrite (IH _ Hrun).
    destruct (last_effect p track); [done|]. by apply track_step_active.
Qed.

Lemma run_time (track : list msg) (st st' : track_state) :
  run track st = Return st' →
  current_time st' = fold_left (λ t m, t + msg_time m) track (current_time st).
Proof.
  revert st; induction track as [|m track IH]; intros st; simpl.
  - by intros [= <-].
  - destruct (step st m) as [st1|e] eqn:E; simpl; [|done].
    intros Hrun. rewrite (IH _ Hrun). by rewrite (track_step_time _ _ _ E).
Qed.

(** From the start of a track, the loop's state is the one read off the
    messages heard so far. *)
Lemma run_state (track : list msg) (a : analysis) (st : track_state) :
  run track (TrackState 0 ∅ a) = Return st →
  active_notes st = sounding track ∧ current_time st = elapsed track.
Proof.
  intros H. split; [|by apply run_time in H].
  apply set_eq. intros p. rewrite (run_active _ _ _ p H), elem_of_sounding.
  simpl. destruct (last_effect p track) as [[]|]; set_solver.
Qed.

Lemma run_chords_from (pre post : list msg) (a : analysis)
  (st st' : track_state) :
  run pre (TrackState 0 ∅ a) = Return st →
  run post st = Return st' →
  chord_progression (st_analysis st') =
  chord_progression (st_analysis st) ++
  flat_map (chord_at track_idx (pre ++ post))
    (seq (List.length pre) (List.length post)).
Proof.
  revert pre st; induction post as [|m post IH]; intros pre st Hpre; simpl.
  - intros [= <-]. by rewrite app_nil_r.
  - destruct (step st m) as [st1|e] eqn:E; simpl; [|done]. intros Hpost.
    assert (run (pre ++ [m]) (TrackState 0 ∅ a) = Return st1) as Hpre1.
    { by rewrite (for_each_snoc _ _ _ _ _ Hpre). }
    specialize (IH _ _ Hpre1 Hpost).
    rewrite <- app_assoc, length_app, Nat.add_1_r in IH. simpl in IH.
    rewrite IH, (track_step_chords _ _ _ E), <- app_assoc. do 2 f_equal.
    destruct (run_state _ _ _ Hpre1) as [Hact Htime].
    unfold chord_at.
    rewrite list_lookup_middle by done.
    assert (take (S (List.length pre)) (pre ++ m :: post) = pre ++ [m]) as ->.
    { rewrite cons_middle, app_assoc. apply take_app_length'.
      rewrite length_app. simpl. lia. }
    by rewrite Hact, Htime.
Qed.

End Track.

Section Claims.

Variable tempo2bpm : Z -> result Qc.
Variable round2 : Qc -> Qc.

Abbreviation step := (track_step tempo2bpm round2).
Abbreviation run idx := (for_each (track_step tempo2bpm round2 idx)).
Abbreviation chords st := (chord_progression (st_analysis st)).

Lemma sorted_chord_event_ok (t : Z) (s : gset Z) (idx : nat) :
  (3 ≤ size s)%nat → chord_event_ok (ChordEvent t (sorted s) idx).
Proof.
  intros H. unfold chord_event_ok. simpl.
  rewrite sorted_length. auto using sorted_ascending, sorted_NoDup.
Qed.

Lemma track_step_chords_ok (idx : nat) (st st' : track_state) (m : msg) :
  Forall chord_event_ok (chords st) → step idx st m = Return st' →
  Forall chord_event_ok (chords st').
Proof.
  intros Hok H. rewrite (track_step_chords _ _ _ _ _ _ H).
  apply Forall_app. split; [done|].
  destruct m; try constructor. case_decide as Hd; constructor; [|constructor].
  apply sorted_chord_event_ok, Hd.
Qed.

Lemma analyze_track_chords_ok (idx : nat) (track : list msg) (a a' : analysis) :
  Forall chord_event_ok (chord_progression a) →
  analyze_track tempo2bpm round2 idx track a = Return a' →
  Forall chord_event_ok (chord_progression a').
Proof.
  unfold analyze_track. intros Hok.
  destruct (run idx track (TrackState 0 ∅ a)) as [st|e] eqn:E; simpl; [|done].
  intros [= <-].
  refine (for_each_invariant _ (λ st, Forall chord_event_ok (chords st))
            _ _ _ _ _ E); [|exact Hok].
  intros s x s' Hs Hx. by eapply track_step_chords_ok.
Qed.

Lemma analyze_tracks_chords_ok (tracks : list (list msg)) (idx : nat)
  (a a' : analysis) :
  Forall chord_event_ok (chord_progression a) →
  analyze_tracks tempo2bpm round2 idx tracks a = Return a' →
  Forall chord_event_ok (chord_progression a').
Proof.
  revert idx a; induction tracks as [|track tracks IH]; intros idx a Hok; simpl.
  - by intros [= <-].
  - destruct (analyze_track tempo2bpm round2 idx track a) as [a1|e] eqn:E;
      simpl; [|done].
    apply IH. by eapply analyze_track_chords_ok.
Qed.

(** C5: every chord event in the progression of a finished analysis has
    its notes in strictly ascending order, without duplicates, and at
    least three of them. *)
Theorem chord_events_sorted_distinct_three (basename : string)
  (mid : result MidiFile) (a : analysis) :
  analyze_chord_midi tempo2bpm round2 basename mid = AnalysisOk a →
  Forall chord_event_ok (chord_progression a).
Proof.
  unfold analyze_chord_midi.
  destruct mid as [mid|e]; simpl; [|done].
  destruct (mid_length mid) as [len|e]; simpl; [|done].
  destruct (analyze_tracks _ _ _ _ _) as [a1|e] eqn:E; simpl; [|done].
  intros [= <-]. simpl.
  eapply analyze_tracks_chords_ok; [|exact E]. constructor.
Qed.

(** C2: when no tempo message raises, the loop over a track returns, and
    the active set it holds at the end is the set of pitches with an
    unmatched trailing note-on: sounded by a note-on of positive velocity
    that no later note-off or zero-velocity note-on of that pitch
    follows. *)
Theorem active_set_is_unmatched_note_ons (idx : nat) (track : list msg)
  (a : analysis) :
  tempos_ok tempo2bpm track →
  ∃ st, run idx track (TrackState 0 ∅ a) = Return st ∧
        ∀ p, p ∈ active_notes st ↔ unmatched_note_on p track.
Proof.
  intros Hok.
  destruct (run_returns tempo2bpm round2 idx track (TrackState 0 ∅ a) Hok)
    as [st Hst].
  exists st. split; [done|]. intros p.
  destruct (run_state _ _ _ _ _ _ Hst) as [-> _].
  by rewrite elem_of_sounding, last_effect_unmatched.
Qed.

(** The chord progression a track leaves is the one read off its
    messages position by position. *)
Theorem track_chords_by_position (idx : nat) (track : list msg)
  (a : analysis) (st : track_state) :
  run idx track (TrackState 0 ∅ a) = Return st →
  chords st = chord_progression a ++ chords_of_track idx track.
Proof.
  intros H.
  by rewrite (run_chords_from _ _ _ [] track a _ _ eq_refl H).
Qed.

Lemma run_chords_prefix (idx : nat) (track : list msg) (st st' : track_state) :
  run idx track st = Return st' → chords st `prefix_of` chords st'.
Proof.
  revert st; induction track as [|m track IH]; intros st; simpl.
  - by intros [= <-].
  - destruct (step idx st m) as [st1|e] eqn:E; simpl; [|done].
    intros Hrun. etrans; [|by apply IH].
    rewrite (track_step_chords _ _ _ _ _ _ E). by apply prefix_app_r.
Qed.

(** One iteration either meets a positive note-on that brings the active
    set to three pitches or more and appends one event, or appends
    nothing. *)
Lemma track_step_cases (idx : nat) (st st' : track_state) (m : msg) :
  step idx st m = Return st' →
  (∃ t n v, m = note_on t n v ∧ 0 < v ∧
            (3 ≤ size ({[n]} ∪ active_notes st))%nat ∧
            chords st' =
            chords st ++ [ChordEvent (current_time st + t)
                            (sorted ({[n]} ∪ active_notes st)) idx]) ∨
  (¬ (∃ t n v, m = note_on t n v ∧ 0 < v ∧
               (3 ≤ size ({[n]} ∪ active_notes st))%nat) ∧
   chords st' = chords st).
Proof.
  intros H. unfold track_step in H.
  destruct m as [t n v|t n v|t tempo|t key|type t].
  - repeat case_bool_decide; apply Return_inj in H; subst st'; simpl.
    + left. by exists t, n, v.
    + right. split; [|done]. intros (? & ? & ? & [= <- <- <-] & ? & ?). lia.
    + right. split; [|done]. intros (? & ? & ? & [= <- <- <-] & ? & ?). lia.
    + right. split; [|done]. intros (? & ? & ? & [= <- <- <-] & ? & ?). lia.
  - apply Return_inj in H; subst st'. right.
    split; [|done]. by intros (? & ? & ? & [=] & _).
  - destruct (tempo2bpm tempo); simpl in H; [|done].
    apply Return_inj in H; subst st'. right.
    split; [|done]. by intros (? & ? & ? & [=] & _).
  - apply Return_inj in H; subst st'. right.
    split; [|done]. by intros (? & ? & ? & [=] & _).
  - apply Return_inj in H; subst st'. right.
    split; [|done]. by intros (? & ? & ? & [=] & _).
Qed.

(** What the loop does at one position of a track it gets through, in
    terms of the state it has there. *)
Lemma chord_step_at_position (idx : nat) (pre post : list msg)
  (m : msg) (a : analysis) (st_end : track_state) :
  run idx (pre ++ m :: post) (TrackState 0 ∅ a) = Return st_end →
  ∃ st st',
    run idx pre (TrackState 0 ∅ a) = Return st ∧
    step idx st m = Return st' ∧
    run idx post st' = Return st_end ∧
    ((∃ e, chords st' = chords st ++ [e]) ↔
     (∃ t n v, m = note_on t n v ∧ 0 < v ∧
               (3 ≤ size ({[n]} ∪ active_notes st))%nat)) ∧
    (∀ t n v, m = note_on t n v → 0 < v →
              (3 ≤ size ({[n]} ∪ active_notes st))%nat →
              chords st' =
              chords st ++ [ChordEvent (current_time st + t)
                              (sorted ({[n]} ∪ active_notes st)) idx]) ∧
    (¬ (∃ e, chords st' = chords st ++ [e]) → chords st' = chords st) ∧
    (releasing m → chords st' = chords st) ∧
    (positive_note_on m → (3 ≤ size (active_notes st))%nat →
     ∃ e, chords st' = chords st ++ [e]) ∧
    chords st' `prefix_of` chords st_end.
Proof.
  rewrite for_each_app. simpl.
  destruct (run idx pre _) as [st|e] eqn:Hpre; simpl; [|done].
  destruct (step idx st m) as [st'|e] eqn:Hstep; simpl; [|done].
  intros Hpost. exists st, st'. do 3 (split; [done|]).
  assert (∀ l (e : chord_event), l ≠ l ++ [e]) as Hne.
  { intros l e Hl. apply (f_equal List.length) in Hl.
    rewrite length_app in Hl. simpl in Hl. lia. }
  pose proof (run_chords_prefix _ _ _ _ Hpost) as Hprefix.
  destruct (track_step_cases _ _ _ _ Hstep)
    as [(t & n & v & -> & Hv & Hsize & Heq)|[Hnot Heq]].
  - split; [split; eauto 10|]. split.
    { by intros ? ? ? [= <- <- <-] _ _. }
    split. { intros []. eauto. }
    split. { intros [p [(? & ? & [=])|(? & [= -> -> ->])]]. lia. }
    split; [eauto|done].
  - split. { split; [|done]. rewrite Heq. intros [e He]. by apply Hne in He. }
    split. { intros t n v -> Hv Hsize. destruct Hnot. eauto 10. }
    split; [done|]. split; [done|]. split; [|done].
    intros (p & t & v & -> & Hv) Hsize. destruct Hnot.
    exists t, p, v. do 2 (split; [done|]).
    etrans; [exact Hsize|]. apply subseteq_size. set_solver.
Qed.

Lemma positive_note_on_inv (m : msg) :
  positive_note_on m ↔ ∃ t n v, m = note_on t n v ∧ 0 < v.
Proof.
  unfold positive_note_on, sounds. split.
  - intros (p & t & v & -> & Hv). by exists t, p, v.
  - intros (t & n & v & -> & Hv). by exists n, t, v.
Qed.

(** C1: on every track whose tempo messages do not raise the loop goes
    through, and at every position the state it has is the one read off
    the messages heard so far.  It appends a chord event exactly when the
    message is a note-on of positive velocity and the pitches sounding
    once its pitch is inserted are three or more; the event carries the
    time elapsed, these pitches in ascending order and the track index.
    Otherwise, and in particular on a note-off or a zero-velocity note-on,
    it appends nothing; with three pitches already sounding every positive
    note-on appends one more event; what was appended stays, and the
    progression at the end is the one read off the track position by
    position. *)
Theorem chord_emitted_iff_third_note_on (idx : nat) (pre post : list msg)
  (m : msg) (a : analysis) :
  tempos_ok tempo2bpm (pre ++ m :: post) →
  ∃ st st' st_end,
    run idx pre (TrackState 0 ∅ a) = Return st ∧
    step idx st m = Return st' ∧
    run idx post st' = Return st_end ∧
    run idx (pre ++ m :: post) (TrackState 0 ∅ a) = Return st_end ∧
    active_notes st = sounding pre ∧
    current_time st = elapsed pre ∧
    active_notes st' = sounding (pre ++ [m]) ∧
    ((∃ e, chords st' = chords st ++ [e]) ↔
     (∃ t n v, m = note_on t n v ∧ 0 < v ∧
               (3 ≤ size ({[n]} ∪ sounding pre))%nat)) ∧
    ((∃ e, chords st' = chords st ++ [e]) ↔
     positive_note_on m ∧ (3 ≤ size (sounding (pre ++ [m])))%nat) ∧
    (∀ t n v, m = note_on t n v → 0 < v →
              (3 ≤ size ({[n]} ∪ sounding pre))%nat →
              chords st' =
              chords st ++ [ChordEvent (elapsed pre + t)
                              (sorted ({[n]} ∪ sounding pre)) idx]) ∧
    (¬ (∃ e, chords st' = chords st ++ [e]) → chords st' = chords st) ∧
    (releasing m → chords st' = chords st) ∧
    (positive_note_on m → (3 ≤ size (sounding pre))%nat →
     ∃ e, chords st' = chords st ++ [e]) ∧
    chords st' `prefix_of` chords st_end ∧
    chords st = chord_progression a ++ chords_of_track idx pre ∧
    chords st_end =
    chord_progression a ++ chords_of_track idx (pre ++ m :: post).
Proof.
  intros Hok.
  destruct (run_returns tempo2bpm round2 idx (pre ++ m :: post)
              (TrackState 0 ∅ a) Hok) as [st_end Hrun].
  destruct (chord_step_at_position idx pre post m a st_end Hrun)
    as (st & st' & Hpre & Hstep & Hpost & Hiff & Hev & Hnot & Hrel & Hdup & Hpfx).
  exists st, st', st_end. do 4 (split; [done|]).
  destruct (run_state _ _ _ _ _ _ Hpre) as [Hact Htime].
  assert (run idx (pre ++ [m]) (TrackState 0 ∅ a) = Return st') as Hpre1.
  { by rewrite (for_each_snoc _ _ _ _ _ Hpre). }
  destruct (run_state _ _ _ _ _ _ Hpre1) as [Hact1 _].
  rewrite Hact, Htime in *. do 4 (split; [done|]).
  split; [|do 5 (split; [done|])].
  - rewrite <- Hact1, positive_note_on_inv.
    rewrite (track_step_chords _ _ _ _ _ _ Hstep).
    assert (∀ l (e : chord_event), l ≠ l ++ [e]) as Hne.
    { intros l e Hl. apply (f_equal List.length) in Hl.
      rewrite length_app in Hl. simpl in Hl. lia. }
    destruct m as [t n v|t n v|t tempo|t key|type t];
      try (rewrite app_nil_r; split;
           [intros [e He]; by apply Hne in He
           |by intros [(? & ? & ? & [=] & _) _]]).
    case_decide as Hd.
    + split; [|by eauto]. intros _. destruct Hd. split; [|done].
      by exists t, n, v.
    + rewrite app_nil_r. split; [intros [e He]; by apply Hne in He|].
      intros [(? & ? & ? & [= <- <- <-] & ?) ?]. by destruct Hd.
  - split; [by apply (track_chords_by_position idx pre a st)|].
    by apply (track_chords_by_position idx (pre ++ m :: post) a st_end).
Qed.

End Claims.

(** * The estimators and the classifier *)

(** C4: the estimated tempo is the bpm of the first tempo change and 120
    without one, the estimated key the key of the first key signature and
    "C" without one, whatever follows the first entry; these are the values
    stored in the analysis. *)
Theorem estimates_first_or_default (name : string) (len : Qc) (tpb : Z)
  (n : nat) (cp : list chord_event) (ne : list msg) (et : option Qc)
  (ek : option string) (cc : option Z)
  (tc : tempo_change) (tcs : list tempo_change)
  (ks : key_signature_entry) (kss : list key_signature_entry) :
  let analysis tempo_changes key_signatures :=
    Analysis name len tpb n cp key_signatures tempo_changes ne et ek cc in
  estimate_tempo (analysis (tc :: tcs) kss) = tc_bpm tc ∧
  estimate_tempo (analysis [] kss) = Q2Qc 120 ∧
  estimate_key (analysis tcs (ks :: kss)) = ks_key ks ∧
  estimate_key (analysis tcs []) = "C"%string ∧
  estimated_tempo (set_estimates (analysis tcs kss)) =
    Some (from_option tc_bpm (Q2Qc 120) (head tcs)) ∧
  estimated_key (set_estimates (analysis tcs kss)) =
    Some (from_option ks_key "C"%string (head kss)).
Proof.
  simpl. repeat split; unfold estimate_tempo, estimate_key; simpl.
  - by destruct tcs.
  - by destruct kss.
Qed.

(** C3: the category depends on the estimated tempo and the chord count
    only; the tempo bucket is slow below 80, fast above 140 and medium in
    between, the count bucket complex above 8, standard above 4 and simple
    otherwise, and the label joins the two with a slash. *)
Theorem categorize_chord_set_buckets :
  (∀ d, categorize_chord_set d =
        classify (get_estimated_tempo d) (get_chord_count d)) ∧
  (∀ tempo chord_count, ∃ category subcategory,
      classify tempo chord_count = (category ++ "/" ++ subcategory)%string ∧
      ((tempo < Q2Qc 80)%Qc ∧ category = "slow-progressions"%string ∨
       (Q2Qc 140 < tempo)%Qc ∧ category = "fast-progressions"%string ∨
       (Q2Qc 80 <= tempo)%Qc ∧ (tempo <= Q2Qc 140)%Qc ∧
       category = "medium-progressions"%string) ∧
      (8 < chord_count ∧ subcategory = "complex"%string ∨
       4 < chord_count <= 8 ∧ subcategory = "standard"%string ∨
       chord_count <= 4 ∧ subcategory = "simple"%string)) ∧
  classify (Q2Qc 79) 9 = "slow-progressions/complex"%string ∧
  classify (Q2Qc 80) 4 = "medium-progressions/simple"%string ∧
  classify (Q2Qc 141) 5 = "fast-progressions/standard"%string.
Proof.
  split; [|split; [|by vm_compute]].
  - intros d. unfold classify, categorize_chord_set. by destruct d.
  - intros tempo chord_count.
    exists (if bool_decide (tempo < Q2Qc 80)%Qc then "slow-progressions"
            else if bool_decide (Q2Qc 140 < tempo)%Qc then "fast-progressions"
            else "medium-progressions")%string,
           (if bool_decide (8 < chord_count) then "complex"
            else if bool_decide (4 < chord_count) then "standard"
            else "simple")%string.
    split; [reflexivity|]. split.
    + repeat case_bool_decide; [by left | by right; left |].
      right; right. split; [|split; [|done]]; by apply Qcnot_lt_le.
    + repeat case_bool_decide; [left | right; left | right; right];
        (split; [lia|done]).
Qed.

(** * The catalog on disk *)

Lemma elem_of_List_filter {A} (f : A → bool) (l : list A) (x : A) :
  x ∈ List.filter f l ↔ x ∈ l ∧ f x = true.
Proof. rewrite !list_elem_of_In. apply filter_In. Qed.

Section CatalogProofs.

Variable bytes : Type.
Variable tempo2bpm : Z -> result Qc.
Variable round2 : Qc -> Qc.
Variable parse_midi : bytes -> result MidiFile.
Variable json_dump : catalog -> bytes.
Variable json_load : bytes -> result catalog.

Abbreviation query := (get_chord_sets_by_category bytes json_load).

(** Each iteration of the processing loop leaves a list under the key
    ["chord_sets"]. *)
Lemma process_file_chord_sets (self : processor)
  (st st' : catalog * list string * gmap string bytes) (f : midi_path) :
  process_file bytes tempo2bpm round2 parse_midi self st f = Return st' →
  is_Some (chord_sets (st.1.1)) → is_Some (chord_sets (st'.1.1)).
Proof.
  destruct st as [[c names] fs]. unfold process_file.
  destruct (has_error _); simpl.
  - by intros [= <-].
  - destruct (copy2 _ _ _ _) as [fs'|e]; simpl; [|done].
    intros [= <-] _. simpl. eauto.
Qed.

(** C6: when [json.load] reads back what [json.dump] wrote, the query
    without a category and without a tempo range, run on the file system
    that [process_chord_sets] leaves, returns the list under
    ["chord_sets"] of the catalog it returned, as it is. *)
Theorem catalog_round_trip (self : processor) (cwd : string)
  (midi_files : list midi_path) (fs fs' : gmap string bytes) (c : catalog) :
  (∀ doc, json_load (json_dump doc) = Return doc) →
  process_chord_sets bytes tempo2bpm round2 parse_midi json_dump
    self cwd midi_files fs = Return (c, fs') →
  ∃ records, chord_sets c = Some records ∧
             query self None None fs' = Return records.
Proof.
  intros Hcodec. unfold process_chord_sets.
  destruct (for_each _ _ _) as [[[c1 names] fs1]|e] eqn:E; simpl; [|done].
  intros [= <- <-].
  assert (is_Some (chord_sets c1)) as [records Hrec].
  { refine (for_each_invariant _ (λ st, is_Some (chord_sets (st.1.1)))
              _ _ _ _ _ E); [|by eexists].
    intros s x s' Hs Hx. by eapply process_file_chord_sets. }
  exists records. split; [done|].
  unfold get_chord_sets_by_category.
  rewrite lookup_insert_eq, Hcodec. simpl. by rewrite Hrec.
Qed.

End CatalogProofs.

Section Query.

Variable bytes : Type.
Variable json_load : bytes -> result catalog.

Abbreviation query := (get_chord_sets_by_category bytes json_load).


End Query.

(** * The text chord heuristic *)

Import ChordProcessor.

Section TextChords.

#[local] Open Scope string_scope.

(** C8: a token is a chord symbol exactly when it is not empty and either
    starts with one of C, D, E, F, G, A, B, or has two characters or more,
    the first b or #, the second one of these seven letters. *)
Theorem is_chord_symbol_iff :
  (∀ text,
     _is_chord_symbol text = true ↔
     text ≠ "" ∧
     ((∃ c, String.get 0 text = Some c ∧ c ∈ chord_roots) ∨
      ((2 ≤ String.length text)%nat ∧
       ∃ c0 c1, String.get 0 text = Some c0 ∧ String.get 1 text = Some c1 ∧
                (c0 = "b"%char ∨ c0 = "#"%char) ∧ c1 ∈ chord_roots))) ∧
  chord_roots = ["C"; "D"; "E"; "F"; "G"; "A"; "B"]%char ∧
  _is_chord_symbol "C" = true ∧ _is_chord_symbol "Am" = true ∧
  _is_chord_symbol "bB" = true ∧ _is_chord_symbol "#F" = true ∧
  _is_chord_symbol "x" = false ∧ _is_chord_symbol "" = false ∧
  _is_chord_symbol "Hello" = false.
Proof.
  split; [|by vm_compute].
  intros text. unfold _is_chord_symbol, char_in.
  destruct text as [|c0 rest]; simpl.
  { split; [done|]. by intros [[] _]. }
  case_bool_decide as H0.
  { split; [|done]. intros _. split; [done|]. left. eauto. }
  destruct rest as [|c1 rest]; simpl.
  { split; [done|]. intros [_ [(c & [= <-] & Hc)|[Hlen _]]]; [done|lia]. }
  rewrite !andb_true_l || idtac.
  split.
  - intros H. split; [done|]. right. split; [lia|].
    exists c0, c1. do 2 (split; [done|]).
    destruct (bool_decide (c0 ∈ ["b"; "#"]%char)) eqn:Hb; [|done].
    destruct (bool_decide (c1 ∈ chord_roots)) eqn:Hr; [|done].
    apply bool_decide_eq_true in Hb, Hr. split; [|done].
    rewrite !elem_of_cons, elem_of_nil in Hb. tauto.
  - intros [_ [(c & [= <-] & Hc)|(_ & c & c' & [= <-] & [= <-] & Hb & Hr)]];
      [done|].
    rewrite (bool_decide_true (c1 ∈ chord_roots)) by done.
    rewrite bool_decide_true; [done|].
    rewrite !elem_of_cons. tauto.
Qed.

End TextChords.

(** * Text files and the directory walk *)

Lemma chord_patterns_nil (lines : list string) :
  (∀ line word, line ∈ lines → word ∈ split (strip line) →
                _is_chord_symbol word = false) →
  chord_patterns lines = [].
Proof.
  induction lines as [|line lines IH]; intros H; simpl; [done|].
  assert (potential_chords line = []) as ->.
  { unfold potential_chords.
    destruct (List.filter _ _) as [|w ws] eqn:E; [done|].
    assert (w ∈ List.filter _is_chord_symbol (split (strip line))) as Hw.
    { rewrite E. left. }
    apply elem_of_List_filter in Hw as [Hw Hacc].
    rewrite (H line w) in Hacc; [done|left|done]. }
  apply IH. intros l w Hl. apply H. by right.
Qed.

Section Walk.

#[local] Open Scope string_scope.

Variable J : Type.
Variable midi_chords : file_entry -> result (list string * Z).
Variable json_load : string -> result J.

Abbreviation walk_step := (analyze_entry J midi_chords json_load).
Abbreviation zip := (process_chord_zip J midi_chords json_load).

(** C10: a text file that reads without error and has no word accepted
    by the heuristic yields a record with an empty list of progressions;
    the record is true as a condition, so the walk appends it, counts the
    file and adds "Text" to the formats, and an archive holding only this
    file reports a chord count of one. *)
Theorem empty_text_record_kept (f : file_entry) (content : string)
  (st : list prog_data * metadata) (dir : string) (run : zip_run) :
  fe_is_file f = true →
  str_in (lower (fe_suffix f)) [".txt"; ".chord"] = true →
  fe_read f = Return content →
  (∀ line word, line ∈ split_on "010"%char content →
                word ∈ split (strip line) → _is_chord_symbol word = false) →
  extracted run = Return [f] →
  (∀ path data, write_json run path data = Return tt) →
  cleanup run = Return tt →
  let record := TextProg (fe_name f) [] (str_take 500 content) in
  _process_text_chords (fe_name f) (fe_read f) = Some record ∧
  truthy (Some record) = true ∧
  walk_step st f =
    ((st.1 ++ [record])%list,
     Metadata (file_count st.2 + 1) (formats st.2 ++ ["Text"])%list) ∧
  zip dir run =
    Success (stem run) (dir ++ "/" ++ stem run ++ "_processed.json") 1
      (Metadata 1 ["Text"]).
Proof.
  intros Hfile Hsuffix Hread Hwords Hext Hwrite Hclean record.
  assert (_process_text_chords (fe_name f) (fe_read f) = Some record) as Htext.
  { unfold _process_text_chords. rewrite Hread. simpl.
    by rewrite chord_patterns_nil. }
  assert (str_in (lower (fe_suffix f)) [".mid"; ".midi"] = false) as Hmid.
  { unfold str_in in *. apply bool_decide_eq_true in Hsuffix.
    apply bool_decide_eq_false. intros Hmid.
    rewrite !elem_of_cons, elem_of_nil in Hsuffix, Hmid.
    destruct Hsuffix as [E|[E|[]]], Hmid as [E'|[E'|[]]]; by rewrite E in E'. }
  assert (∀ st, walk_step st f =
    ((st.1 ++ [record])%list,
     Metadata (file_count st.2 + 1) (formats st.2 ++ ["Text"])%list)) as Hstep.
  { intros [progs md]. unfold analyze_entry.
    by rewrite Hfile, Hmid, Hsuffix, Htext. }
  do 3 (split; [done|]).
  unfold process_chord_zip, _analyze_chord_files. rewrite Hext. simpl.
  rewrite Hstep. simpl. by rewrite Hwrite, Hclean.
Qed.

(** C9: [process_chord_zip] always returns a response, whatever the run
    does.  It is a failure carrying the message of the exception exactly
    when the archive did not open with it, or leaving the [with] blocks
    raised it, or they were left quietly and the extraction or the
    writing of the artifact had raised it; it is a success carrying the
    name, the output path, the number of progressions and the metadata
    exactly when the archive opened and all three steps went through. *)
Theorem process_chord_zip_never_raises (dir : string) (zip_path : ZipFile) :
  let output_path run := dir ++ "/" ++ stem run ++ "_processed.json" in
  let walk := _analyze_chord_files J midi_chords json_load in
  (∀ e, zip dir zip_path = Failure e ↔
        zip_path = OpenFailed e ∨
        ∃ run, zip_path = Opened run ∧
          (cleanup run = Raise e ∨
           cleanup run = Return tt ∧
           (extracted run = Raise e ∨
            ∃ files, extracted run = Return files ∧
              write_json run (output_path run) (walk files) = Raise e))) ∧
  (∀ name path count md, zip dir zip_path = Success name path count md ↔
        ∃ run files, zip_path = Opened run ∧
          extracted run = Return files ∧
          write_json run (output_path run) (walk files) = Return tt ∧
          cleanup run = Return tt ∧
          name = stem run ∧ path = output_path run ∧
          count = List.length (progressions (walk files)) ∧
          md = cd_metadata (walk files)) ∧
  ((∃ e, zip dir zip_path = Failure e) ∨
   (∃ name path count md, zip dir zip_path = Success name path count md)).
Proof.
  intros output_path walk. unfold process_chord_zip.
  destruct zip_path as [e0|run]; simpl.
  { split; [|split; [|left; eauto]].
    - intros e. split.
      + intros [= <-]. by left.
      + by intros [[= <-]|(r & [=] & _)].
    - intros name path count md. split; [done|].
      by intros (r & fs & [=] & _). }
  fold (output_path run). fold walk.
  destruct (cleanup run) as [[]|e2] eqn:Hc; simpl.
  - destruct (extracted run) as [files|e0] eqn:He; simpl.
    + destruct (write_json run (output_path run) (walk files))
        as [[]|e1] eqn:Hw; simpl.
      * split; [|split; [|right; eauto]].
        -- intros e. split; [done|].
           intros [[=]|(r & [= <-] & [Hr|[_ [Hr|(fs & Hr & Hr')]]])];
             rewrite ?Hc, ?He in Hr; try done.
           injection Hr as <-. by rewrite Hw in Hr'.
        -- intros name path count md. split.
           ++ intros [= <- <- <- <-]. by exists run, files.
           ++ intros (r & fs & [= <-] & Hr & _ & _ & -> & -> & -> & ->).
              rewrite He in Hr. by injection Hr as <-.
      * split; [|split; [|left; eauto]].
        -- intros e. split.
           ++ intros [= <-]. right. exists run. split; [done|]. right.
              split; [done|]. right. by exists files.
           ++ intros [[=]|(r & [= <-] & [Hr|[_ [Hr|(fs & Hr & Hr')]]])];
                rewrite ?Hc, ?He in Hr; try done.
              injection Hr as <-. rewrite Hw in Hr'. by injection Hr' as <-.
        -- intros name path count md. split; [done|].
           intros (r & fs & [= <-] & Hr & Hr' & _).
           rewrite He in Hr. injection Hr as <-. by rewrite Hw in Hr'.
    + split; [|split; [|left; eauto]].
      * intros e. split.
        -- intros [= <-]. right. exists run. split; [done|]. right.
           split; [done|]. by left.
        -- intros [[=]|(r & [= <-] & [Hr|[_ [Hr|(fs & Hr & _)]]])];
             rewrite ?Hc, ?He in Hr; try done. by injection Hr as <-.
      * intros name path count md. split; [done|].
        intros (r & fs & [= <-] & Hr & _). by rewrite He in Hr.
  - split; [|split; [|left; eauto]].
    + intros e. split.
      * intros [= <-]. right. exists run. split; [done|]. by left.
      * intros [[=]|(r & [= <-] & [Hr|[Hr _]])]; rewrite Hc in Hr; try done.
        by injection Hr as <-.
    + intros name path count md. split; [done|].
      intros (r & fs & [= <-] & _ & _ & Hr & _). by rewrite Hc in Hr.
Qed.

End Walk.

(** * The theorems at work on a small world

    The statements with a hypothesis, applied to the triad of [World] and
    to the text file of [Archive]. *)

Section Instances.

#[local] Open Scope string_scope.

(** The triad makes a chord when its third note starts and again when the
    fourth does; no note is left sounding. *)
Example triad_chords :
  chord_progression World.triad_analysis =
  [ChordEvent 0 [60; 64; 67] 0; ChordEvent 480 [60; 64; 67; 72] 0].
Proof. vm_compute. reflexivity. Qed.

Example triad_released : active_notes World.track_end = ∅.
Proof. vm_compute. reflexivity. Qed.

Example triad_category :
  categorize_chord_set (AnalysisOk World.triad_analysis) =
  "medium-progressions/simple".
Proof. vm_compute. reflexivity. Qed.

Example triad_by_position :
  chords_of_track 0 World.triad =
  chord_progression World.triad_analysis.
Proof. vm_compute. reflexivity. Qed.

(** The third note-on of the triad: the loop is split around it. *)
Lemma chord_emitted_iff_third_note_on_triad :
  ∃ st st' st_end,
    World.triad_run (take 3 World.triad) World.start = Return st ∧
    track_step World.tempo2bpm World.round2 0 st (note_on 0 67 64) = Return st' ∧
    World.triad_run (drop 4 World.triad) st' = Return st_end ∧
    ∃ e, chord_progression (st_analysis st') =
         (chord_progression (st_analysis st) ++ [e])%list.
Proof.
  destruct (chord_emitted_iff_third_note_on World.tempo2bpm World.round2 0
              (take 3 World.triad) (drop 4 World.triad) (note_on 0 67 64)
              World.blank)
    as (st & st' & st_end & Hpre & Hstep & Hpost & _ & _ & _ & _ & Hiff & _).
  - intros t tempo H. apply list_elem_of_In in H. simpl in H.
    destruct H as [H|[H|[H|[H|[H|[H|[H|[H|[H|[]]]]]]]]]]; try discriminate H.
    injection H as _ <-. eexists. vm_compute. reflexivity.
  - exists st, st', st_end. split; [exact Hpre|]. split; [exact Hstep|].
    split; [exact Hpost|]. apply Hiff. exists 0, 67, 64.
    split; [reflexivity|]. split; [reflexivity|]. vm_compute. reflexivity.
Defined.

(** The only tempo message of the triad has a non-zero tempo. *)
Lemma active_set_is_unmatched_note_ons_triad :
  ∃ st, World.triad_run World.triad World.start = Return st ∧
        ∀ p, p ∈ active_notes st ↔ unmatched_note_on p World.triad.
Proof.
  apply (active_set_is_unmatched_note_ons World.tempo2bpm World.round2 0
           World.triad World.blank).
  intros t tempo H. apply list_elem_of_In in H. simpl in H.
  destruct H as [H|[H|[H|[H|[H|[H|[H|[H|[H|[]]]]]]]]]]; try discriminate H.
  injection H as _ <-. eexists. vm_compute. reflexivity.
Defined.

Lemma chord_events_sorted_distinct_three_triad :
  Forall chord_event_ok (chord_progression World.triad_analysis).
Proof.
  apply (chord_events_sorted_distinct_three World.tempo2bpm World.round2
           "triad.mid" (Return World.triad_mid)).
  vm_compute. reflexivity.
Defined.

Lemma catalog_round_trip_triad :
  ∃ records,
    chord_sets World.catalog_out = Some records ∧
    get_chord_sets_by_category World.file World.json_load World.self None None
      World.fs_out = Return records.
Proof.
  apply (catalog_round_trip World.file World.tempo2bpm World.round2
           World.parse_midi World.json_dump World.json_load World.self
           "/home/runner" World.midi_files World.fs0).
  - intros doc. reflexivity.
  - vm_compute. reflexivity.
Defined.


Lemma empty_text_record_kept_notes :
  process_chord_zip unit Archive.midi_chords Archive.json_load
    "storage/midi/chord-sets" Archive.run =
  Success "set" "storage/midi/chord-sets/set_processed.json" 1
    (Metadata 1 ["Text"]).
Proof.
  refine (proj2 (proj2 (proj2
    (empty_text_record_kept unit Archive.midi_chords Archive.json_load
       Archive.notes_txt Archive.notes ([], Metadata 0 [])
       "storage/midi/chord-sets" Archive.run _ _ _ _ _ _ _)))).
  - reflexivity.
  - vm_compute. reflexivity.
  - reflexivity.
  - intros line word Hl Hw.
    apply list_elem_of_In in Hl. simpl in Hl.
    destruct Hl as [<-|[<-|[<-|[<-|[]]]]];
      apply list_elem_of_In in Hw; simpl in Hw;
      repeat (destruct Hw as [<-|Hw]; [vm_compute; reflexivity|]);
      destruct Hw.
  - reflexivity.
  - intros path data. reflexivity.
  - reflexivity.
Defined.

(** A file that is not an archive: the message of the exception is the
    error of the response. *)
Example bad_archive_is_failure :
  process_chord_zip unit Archive.midi_chords Archive.json_load
    "storage/midi/chord-sets" (OpenFailed "File is not a zip file") =
  Failure "File is not a zip file".
Proof. reflexivity. Qed.

(** The artifact cannot be written and then the temporary directory
    cannot be removed: the second exception is the one reported. *)
Example cleanup_error_is_reported :
  process_chord_zip unit Archive.midi_chords Archive.json_load
    "storage/midi/chord-sets"
    {| extracted := Return [Archive.notes_txt];
       stem := "set";
       write_json := λ _ _, Raise "[Errno 28] No space left on device";
       cleanup := Raise "[Errno 39] Directory not empty: 'extracted'" |} =
  Failure "[Errno 39] Directory not empty: 'extracted'".
Proof. reflexivity. Qed.

End Instances.

(** * Whole files *)

Import FileSpec.


(** ** What the positions of a track give *)

Lemma elem_of_chords_of_track (idx : nat) (track : list msg) (e : chord_event) :
  e ∈ chords_of_track idx track ↔
  ∃ i t n v,
    track !! i = Some (note_on t n v) ∧ 0 < v ∧
    (3 ≤ size (sounding (take (S i) track)))%nat ∧
    e = ChordEvent (elapsed (take (S i) track))
          (sorted (sounding (take (S i) track))) idx.
Proof.
  unfold chords_of_track. rewrite list_elem_of_In, in_flat_map. split.
  - intros (i & _ & Hin). apply list_elem_of_In in Hin. unfold chord_at in Hin.
    destruct (track !! i) as [[t n v| | | |]|] eqn:E;
      try by apply elem_of_nil in Hin.
    case_decide as Hd; [|by apply elem_of_nil in Hin].
    apply list_elem_of_singleton in Hin. exists i, t, n, v. tauto.
  - intros (i & t & n & v & Hi & Hv & Hsize & ->). exists i. split.
    + apply in_seq. apply lookup_lt_Some in Hi. lia.
    + unfold chord_at. rewrite Hi, decide_True by done. by left.
Qed.

Lemma elem_of_chords_of_tracks (tracks : list (list msg)) (first : nat)
  (e : chord_event) :
  e ∈ chords_of_tracks first tracks ↔
  ∃ j track, tracks !! j = Some track ∧
             e ∈ chords_of_track (first + j) track.
Proof.
  revert first; induction tracks as [|track tracks IH]; intros first; simpl.
  - split; [by intros ?%elem_of_nil|]. by intros (j & track & [=] & _).
  - rewrite elem_of_app, IH. split.
    + intros [H|(j & tr & Hj & H)].
      * exists 0%nat, track. by rewrite Nat.add_0_r.
      * exists (S j), tr. by rewrite Nat.add_succ_r.
    + intros ([|j] & tr & Hj & H).
      * left. rewrite Nat.add_0_r in H. by injection Hj as <-.
      * right. exists j, tr. by rewrite Nat.add_succ_r in H.
Qed.

(** The note that starts a chord is one of its notes. *)
Lemma last_effect_trigger (track : list msg) (i : nat) (t n v : Z) :
  track !! i = Some (note_on t n v) → 0 < v →
  last_effect n (take (S i) track) = Some true.
Proof.
  intros Hi Hv. rewrite (take_S_r _ _ _ Hi), last_effect_app. simpl.
  by rewrite !decide_True.
Qed.

Lemma positive_count_cons (m : msg) (track : list msg) :
  positive_count (m :: track) =
  ((if is_positive_note_on m then 1 else 0) + positive_count track)%nat.
Proof. unfold positive_count. simpl. by destruct (is_positive_note_on m). Qed.

Section Bound.

Variable tempo2bpm : Z -> result Qc.
Variable round2 : Qc -> Qc.
Variable idx : nat.

Abbreviation bound_step := (track_step tempo2bpm round2 idx).
Abbreviation bound_run := (for_each (track_step tempo2bpm round2 idx)).

Lemma size_insert_le (n : Z) (s : gset Z) : (size ({[n]} ∪ s) ≤ S (size s))%nat.
Proof.
  rewrite size_union_alt, size_singleton.
  assert (size (s ∖ {[n]}) ≤ size s)%nat; [|lia].
  apply subseteq_size, elem_of_subseteq. by intros x [Hx _]%elem_of_difference.
Qed.

Lemma size_discard_le (n : Z) (s : gset Z) : (size (s ∖ {[n]}) ≤ size s)%nat.
Proof.
  apply subseteq_size, elem_of_subseteq. by intros x [Hx _]%elem_of_difference.
Qed.

(** With [k] positive note-ons heard, at most [k] pitches are active and
    at most [k - 2] chord events were appended. *)
Lemma track_step_bound (st st' : track_state) (m : msg) (k : nat) :
  bound_step st m = Return st' →
  (size (active_notes st) ≤ k)%nat →
  (List.length (chord_progression (st_analysis st)) ≤ k - 2)%nat →
  let k' := ((if is_positive_note_on m then 1 else 0) + k)%nat in
  (size (active_notes st') ≤ k')%nat ∧
  (List.length (chord_progression (st_analysis st')) ≤ k' - 2)%nat.
Proof.
  intros Hs Hsize Hlen. unfold track_step in Hs.
  destruct m as [t n v|t n v|t tempo|t key|type t]; simpl.
  - pose proof (size_insert_le n (active_notes st)).
    pose proof (size_discard_le n (active_notes st)).
    repeat case_bool_decide; apply Return_inj in Hs; subst st'; simpl in *;
      rewrite ?length_app; simpl; lia.
  - pose proof (size_discard_le n (active_notes st)).
    apply Return_inj in Hs; subst st'; simpl. lia.
  - destruct (tempo2bpm tempo); simpl in Hs; [|done].
    apply Return_inj in Hs; subst st'; simpl. lia.
  - apply Return_inj in Hs; subst st'; simpl. lia.
  - apply Return_inj in Hs; subst st'; simpl. lia.
Qed.

Lemma run_bound (track : list msg) (st st' : track_state) (k : nat) :
  bound_run track st = Return st' →
  (size (active_notes st) ≤ k)%nat →
  (List.length (chord_progression (st_analysis st)) ≤ k - 2)%nat →
  (List.length (chord_progression (st_analysis st')) ≤
   (positive_count track + k) - 2)%nat.
Proof.
  revert st k; induction track as [|m track IH]; intros st k; simpl.
  - by intros [= <-].
  - destruct (bound_step st m) as [st1|e] eqn:E; simpl; [|done].
    intros Hrun Hsize Hlen.
    destruct (track_step_bound _ _ _ _ E Hsize Hlen) as [Hsize1 Hlen1].
    specialize (IH _ _ Hrun Hsize1 Hlen1).
    rewrite positive_count_cons. lia.
Qed.

End Bound.

(** A track gives no chord before its third positive note-on, and at most
    one for each from the third on. *)
Lemma chords_of_track_bound (idx : nat) (track : list msg) :
  (List.length (chords_of_track idx track) ≤ positive_count track - 2)%nat.
Proof.
  set (t0 := λ _ : Z, Return (Q2Qc 0)).
  destruct (run_returns t0 id idx track (TrackState 0 ∅ World.blank))
    as [st Hst].
  { intros t tempo _. by eexists. }
  pose proof (track_chords_by_position _ _ _ _ _ _ Hst) as Hc. simpl in Hc.
  rewrite <- Hc.
  assert (size (active_notes (TrackState 0 ∅ World.blank)) ≤ 0)%nat as H0.
  { change (size (∅ : gset Z) ≤ 0)%nat. by rewrite size_empty. }
  pose proof (run_bound _ _ _ _ _ _ 0 Hst H0) as Hb. simpl in Hb.
  rewrite Nat.add_0_r in Hb. apply Hb. lia.
Qed.

Lemma chords_of_tracks_bound (tracks : list (list msg)) (first : nat) :
  (List.length (chords_of_tracks first tracks) ≤ chord_bound tracks)%nat.
Proof.
  revert first; induction tracks as [|track tracks IH]; intros first; simpl.
  - done.
  - rewrite length_app. pose proof (chords_of_track_bound first track).
    specialize (IH (S first)). lia.
Qed.

Section Files.

Variable tempo2bpm : Z -> result Qc.
Variable round2 : Qc -> Qc.

Abbreviation file_step := (track_step tempo2bpm round2).
Abbreviation file_run idx := (for_each (track_step tempo2bpm round2 idx)).
Abbreviation analyze := (analyze_chord_midi tempo2bpm round2).

(** The keys that the track loop never writes. *)
Lemma track_step_header (idx : nat) (st st' : track_state) (m : msg) :
  file_step idx st m = Return st' →
  filename (st_analysis st') = filename (st_analysis st) ∧
  ticks_per_beat (st_analysis st') = ticks_per_beat (st_analysis st) ∧
  num_tracks (st_analysis st') = num_tracks (st_analysis st) ∧
  note_events (st_analysis st') = note_events (st_analysis st).
Proof.
  unfold track_step. destruct m; repeat case_bool_decide;
    try (destruct (tempo2bpm tempo); simpl; [|done]);
    intros Hs; apply Return_inj in Hs; by subst st'.
Qed.

Lemma analyze_track_header (idx : nat) (track : list msg) (a a' : analysis) :
  analyze_track tempo2bpm round2 idx track a = Return a' →
  filename a' = filename a ∧ ticks_per_beat a' = ticks_per_beat a ∧
  num_tracks a' = num_tracks a ∧ note_events a' = note_events a.
Proof.
  unfold analyze_track.
  destruct (file_run idx track (TrackState 0 ∅ a)) as [st|e] eqn:E; simpl; [|done].
  intros [= <-].
  refine (for_each_invariant _
            (λ st, filename (st_analysis st) = filename a ∧
                   ticks_per_beat (st_analysis st) = ticks_per_beat a ∧
                   num_tracks (st_analysis st) = num_tracks a ∧
                   note_events (st_analysis st) = note_events a)
            _ _ _ _ _ E); [|done].
  intros s x s' (? & ? & ? & ?) Hx.
  destruct (track_step_header _ _ _ _ Hx) as (-> & -> & -> & ->). done.
Qed.

Lemma analyze_tracks_header (tracks : list (list msg)) (idx : nat)
  (a a' : analysis) :
  analyze_tracks tempo2bpm round2 idx tracks a = Return a' →
  filename a' = filename a ∧ ticks_per_beat a' = ticks_per_beat a ∧
  num_tracks a' = num_tracks a ∧ note_events a' = note_events a.
Proof.
  revert idx a; induction tracks as [|track tracks IH]; intros idx a; simpl.
  - by intros [= <-].
  - destruct (analyze_track _ _ idx track a) as [a1|e] eqn:E; simpl; [|done].
    intros H. destruct (IH _ _ H) as (-> & -> & -> & ->).
    by apply analyze_track_header in E.
Qed.

Lemma analyze_track_chords (idx : nat) (track : list msg) (a a' : analysis) :
  analyze_track tempo2bpm round2 idx track a = Return a' →
  chord_progression a' = chord_progression a ++ chords_of_track idx track.
Proof.
  unfold analyze_track.
  destruct (file_run idx track (TrackState 0 ∅ a)) as [st|e] eqn:E; simpl; [|done].
  intros [= <-]. by apply (track_chords_by_position tempo2bpm round2).
Qed.

Lemma analyze_tracks_chords (tracks : list (list msg)) (idx : nat)
  (a a' : analysis) :
  analyze_tracks tempo2bpm round2 idx tracks a = Return a' →
  chord_progression a' = chord_progression a ++ chords_of_tracks idx tracks.
Proof.
  revert idx a; induction tracks as [|track tracks IH]; intros idx a; simpl.
  - intros [= <-]. by rewrite app_nil_r.
  - destruct (analyze_track _ _ idx track a) as [a1|e] eqn:E; simpl; [|done].
    intros H. rewrite (IH _ _ H), (analyze_track_chords _ _ _ _ E).
    by rewrite app_assoc.
Qed.

(** A successful analysis, taken apart. *)
Lemma analyze_ok_inv (basename : string) (mid : result MidiFile) (a : analysis) :
  analyze basename mid = AnalysisOk a →
  ∃ m len a1,
    mid = Return m ∧ mid_length m = Return len ∧
    analyze_tracks tempo2bpm round2 0 (mid_tracks m)
      (Analysis basename len (mid_ticks_per_beat m)
         (List.length (mid_tracks m)) [] [] [] [] None None None) = Return a1 ∧
    a = set_estimates a1.
Proof.
  unfold analyze_chord_midi.
  destruct mid as [m|e]; simpl; [|done].
  destruct (mid_length m) as [len|e] eqn:El; simpl; [|done].
  destruct (analyze_tracks _ _ _ _ _) as [a1|e] eqn:E; simpl; [|done].
  intros [= <-]. by exists m, len, a1.
Qed.

(** X1: the chord progression of an analysed file is the concatenation,
    in track order, of what each track gives on its own, read off its
    messages position by position: the active notes start afresh with every
    track, and [chord_count] is the length of that list. *)
Theorem analysis_chords_by_track (basename : string) (m : MidiFile)
  (a : analysis) :
  analyze basename (Return m) = AnalysisOk a →
  chord_progression a = chords_of_tracks 0 (mid_tracks m) ∧
  chord_count a =
    Some (Z.of_nat (List.length (chords_of_tracks 0 (mid_tracks m)))) ∧
  filename a = basename ∧
  ticks_per_beat a = mid_ticks_per_beat m ∧
  num_tracks a = List.length (mid_tracks m) ∧
  note_events a = [].
Proof.
  intros H. apply analyze_ok_inv in H as (m' & len & a1 & [= <-] & _ & Hrun & ->).
  pose proof (analyze_tracks_chords _ _ _ _ Hrun) as Hc. simpl in Hc.
  destruct (analyze_tracks_header _ _ _ _ Hrun) as (Hf & Ht & Hn & He).
  simpl in *. by rewrite Hc, Hf, Ht, Hn, He.
Qed.

(** ** When the analysis fails *)

Lemma file_run_tempos_ok (idx : nat) (track : list msg) (st st' : track_state) :
  file_run idx track st = Return st' → tempos_ok tempo2bpm track.
Proof.
  revert st; induction track as [|m track IH]; intros st; simpl.
  - intros _ t tempo Hin. by apply elem_of_nil in Hin.
  - destruct (file_step idx st m) as [st1|e] eqn:E; simpl; [|done].
    intros Hrun t tempo [<-|Hin]%elem_of_cons; [|by eapply IH].
    unfold track_step in E. destruct (tempo2bpm tempo); [by eexists|done].
Qed.

Lemma analyze_track_returns_iff (idx : nat) (track : list msg) (a : analysis) :
  (∃ a', analyze_track tempo2bpm round2 idx track a = Return a') ↔
  tempos_ok tempo2bpm track.
Proof.
  unfold analyze_track. split.
  - intros [a' H].
    destruct (file_run idx track _) as [st|e] eqn:E; simpl in H; [|done].
    by eapply file_run_tempos_ok.
  - intros Hok.
    destruct (run_returns tempo2bpm round2 idx track (TrackState 0 ∅ a) Hok)
      as [st ->].
    by eexists.
Qed.

Lemma analyze_tracks_returns_iff (tracks : list (list msg)) (idx : nat)
  (a : analysis) :
  (∃ a', analyze_tracks tempo2bpm round2 idx tracks a = Return a') ↔
  Forall (tempos_ok tempo2bpm) tracks.
Proof.
  revert idx a; induction tracks as [|track tracks IH]; intros idx a; simpl.
  - split; [constructor|by eexists].
  - rewrite list.Forall_cons, <- (analyze_track_returns_iff idx track a). split.
    + intros [a' H].
      destruct (analyze_track _ _ idx track a) as [a1|e]; simpl in H; [|done].
      split; [by eexists|]. apply (IH (S idx) a1). by eexists.
    + intros [[a1 ->] Hrest]. simpl. by apply IH.
Qed.

(** X2: the analysis of a file succeeds exactly when the file parses, its
    length can be computed and no tempo message of any track makes
    [tempo2bpm] raise; every failure gives the error dictionary with the
    base name and the status "error", and a parse error gives its own
    message. *)
Theorem analyze_chord_midi_error_iff (basename : string) (mid : result MidiFile) :
  (has_error (analyze basename mid) = false ↔
   ∃ m len, mid = Return m ∧ mid_length m = Return len ∧
            Forall (tempos_ok tempo2bpm) (mid_tracks m)) ∧
  (has_error (analyze basename mid) = true ↔
   ∃ e, analyze basename mid = AnalysisError basename e "error") ∧
  (∀ e, analyze basename (Raise e) = AnalysisError basename e "error").
Proof.
  split; [|split].
  - split.
    + destruct (analyze basename mid) as [a|] eqn:E; [|done]. intros _.
      apply analyze_ok_inv in E as (m & len & a1 & -> & Hl & Hrun & _).
      exists m, len. do 2 (split; [done|]).
      eapply analyze_tracks_returns_iff. by eexists.
    + intros (m & len & -> & Hl & Hok).
      unfold analyze_chord_midi. simpl. rewrite Hl. simpl.
      eapply analyze_tracks_returns_iff in Hok as [a1 ->]. done.
  - unfold analyze_chord_midi.
    destruct mid as [m|e]; simpl; [|split; eauto].
    destruct (mid_length m) as [len|e]; simpl; [|split; eauto].
    destruct (analyze_tracks _ _ _ _ _) as [a1|e]; simpl; [|split; eauto].
    split; [done|]. by intros [e [=]].
  - done.
Qed.

(** ** Bounds and contents of the chord progression *)

(** X3: an analysed file has at most as many chord events as its tracks
    have positive note-ons beyond their second; a file in which every
    track has fewer than three has none. *)
Theorem chord_count_bound (basename : string) (m : MidiFile) (a : analysis) :
  analyze basename (Return m) = AnalysisOk a →
  (List.length (chord_progression a) ≤ chord_bound (mid_tracks m))%nat ∧
  (Forall (λ track, (positive_count track < 3)%nat) (mid_tracks m) →
   chord_progression a = [] ∧ chord_count a = Some 0).
Proof.
  intros H. apply analyze_ok_inv in H as (m' & len & a1 & [= <-] & _ & Hrun & ->).
  pose proof (analyze_tracks_chords _ _ _ _ Hrun) as Hc. simpl in Hc.
  simpl. rewrite Hc. pose proof (chords_of_tracks_bound (mid_tracks m) 0) as Hb.
  split; [done|]. intros Hfew.
  assert (chord_bound (mid_tracks m) = 0%nat) as Hz.
  { clear -Hfew. induction Hfew as [|track tracks Ht _ IH]; simpl; lia. }
  rewrite Hz in Hb. destruct (chords_of_tracks 0 (mid_tracks m)); [done|].
  simpl in Hb. lia.
Qed.

(** X4: every chord event of an analysed file comes from one position of
    the track it names: a positive note-on, whose pitch is among the
    event's notes; the event's time is the sum of the delta times up to
    that message, and its notes are the pitches with an unmatched note-on
    in the track up to that message. *)
Theorem chord_event_origin (basename : string) (m : MidiFile) (a : analysis)
  (e : chord_event) :
  analyze basename (Return m) = AnalysisOk a →
  e ∈ chord_progression a →
  ∃ track i t n v,
    mid_tracks m !! ce_track e = Some track ∧
    track !! i = Some (note_on t n v) ∧ 0 < v ∧
    n ∈ ce_notes e ∧
    ce_time e = elapsed (take (S i) track) ∧
    ∀ p, p ∈ ce_notes e ↔ unmatched_note_on p (take (S i) track).
Proof.
  intros H He.
  apply analyze_ok_inv in H as (m' & len & a1 & [= <-] & _ & Hrun & ->).
  pose proof (analyze_tracks_chords _ _ _ _ Hrun) as Hc. simpl in Hc, He.
  rewrite Hc in He.
  apply elem_of_chords_of_tracks in He as (j & track & Hj & He).
  apply elem_of_chords_of_track in He as (i & t & n & v & Hi & Hv & _ & ->).
  exists track, i, t, n, v. simpl. do 3 (split; [done|]).
  split; [|split; [done|]].
  - rewrite elem_of_sorted, elem_of_sounding. by eapply last_effect_trigger.
  - intros p. by rewrite elem_of_sorted, elem_of_sounding, last_effect_unmatched.
Qed.

(** ** The estimates of a file *)

Lemma track_step_tempos (idx : nat) (st st' : track_state) (m : msg)
  (tempos : list Z) :
  file_step idx st m = Return st' →
  Forall2 (λ tc tempo, ∃ bpm, tempo2bpm tempo = Return bpm ∧
                              tc_bpm tc = round2 bpm)
    (tempo_changes (st_analysis st)) tempos →
  Forall2 (λ tc tempo, ∃ bpm, tempo2bpm tempo = Return bpm ∧
                              tc_bpm tc = round2 bpm)
    (tempo_changes (st_analysis st')) (tempos ++ option_list (tempo_of m)).
Proof.
  intros Hs Hall. unfold track_step in Hs.
  destruct m as [t n v|t n v|t tempo|t key|type t]; simpl;
    rewrite ?app_nil_r;
    try (repeat case_bool_decide; apply Return_inj in Hs; by subst st').
  destruct (tempo2bpm tempo) as [bpm|] eqn:E; simpl in Hs; [|done].
  apply Return_inj in Hs; subst st'; simpl.
  apply Forall2_app; [done|]. constructor; [|constructor]. by exists bpm.
Qed.

Lemma track_step_keys (idx : nat) (st st' : track_state) (m : msg) :
  file_step idx st m = Return st' →
  map ks_key (key_signatures (st_analysis st')) =
  map ks_key (key_signatures (st_analysis st)) ++ option_list (key_of m).
Proof.
  intros Hs. unfold track_step in Hs.
  destruct m as [t n v|t n v|t tempo|t key|type t]; simpl;
    rewrite ?app_nil_r;
    try (repeat case_bool_decide; apply Return_inj in Hs; by subst st').
  - destruct (tempo2bpm tempo) as [bpm|] eqn:E; simpl in Hs; [|done].
    apply Return_inj in Hs; by subst st'.
  - apply Return_inj in Hs; subst st'; simpl. by rewrite map_app.
Qed.

Lemma omap_cons_option_list {A B} (f : A → option B) (x : A) (l : list A) :
  omap f (x :: l) = option_list (f x) ++ omap f l.
Proof. simpl. by destruct (f x). Qed.

Lemma file_run_meta (idx : nat) (track : list msg) (st st' : track_state)
  (tempos : list Z) :
  file_run idx track st = Return st' →
  Forall2 (λ tc tempo, ∃ bpm, tempo2bpm tempo = Return bpm ∧
                              tc_bpm tc = round2 bpm)
    (tempo_changes (st_analysis st)) tempos →
  Forall2 (λ tc tempo, ∃ bpm, tempo2bpm tempo = Return bpm ∧
                              tc_bpm tc = round2 bpm)
    (tempo_changes (st_analysis st')) (tempos ++ omap tempo_of track) ∧
  map ks_key (key_signatures (st_analysis st')) =
  map ks_key (key_signatures (st_analysis st)) ++ omap key_of track.
Proof.
  revert st tempos; induction track as [|m track IH]; intros st tempos Hrun Hall.
  - simpl in Hrun. apply Return_inj in Hrun; subst st'. by rewrite !app_nil_r.
  - simpl in Hrun.
    destruct (file_step idx st m) as [st1|e] eqn:E; simpl in Hrun; [|done].
    destruct (IH _ _ Hrun (track_step_tempos _ _ _ _ _ E Hall)) as [Ht Hk].
    rewrite !omap_cons_option_list, !app_assoc.
    split; [done|]. by rewrite Hk, (track_step_keys _ _ _ _ E).
Qed.

Lemma analyze_tracks_meta (tracks : list (list msg)) (idx : nat)
  (a a' : analysis) (tempos : list Z) :
  analyze_tracks tempo2bpm round2 idx tracks a = Return a' →
  Forall2 (λ tc tempo, ∃ bpm, tempo2bpm tempo = Return bpm ∧
                              tc_bpm tc = round2 bpm)
    (tempo_changes a) tempos →
  Forall2 (λ tc tempo, ∃ bpm, tempo2bpm tempo = Return bpm ∧
                              tc_bpm tc = round2 bpm)
    (tempo_changes a') (tempos ++ omap tempo_of (concat tracks)) ∧
  map ks_key (key_signatures a') =
  map ks_key (key_signatures a) ++ omap key_of (concat tracks).
Proof.
  revert idx a tempos; induction tracks as [|track tracks IH];
    intros idx a tempos; simpl.
  - intros [= <-] Hall. by rewrite !app_nil_r.
  - unfold analyze_track.
    destruct (file_run idx track (TrackState 0 ∅ a)) as [st|e] eqn:E;
      simpl; [|done].
    intros Hrun Hall.
    destruct (file_run_meta _ _ _ _ _ E Hall) as [Ht Hk]. simpl in Hk.
    destruct (IH _ _ _ Hrun Ht) as [Ht' Hk'].
    rewrite !omap_app, !app_assoc. split; [done|]. by rewrite Hk', Hk.
Qed.

(** X5: the estimated tempo of an analysed file is the rounded bpm of the
    first tempo message of the file, taken track after track, and 120 when
    no track has one; the estimated key is the key of the first key
    signature, and "C" when there is none. *)
Theorem estimates_from_first_messages (basename : string) (m : MidiFile)
  (a : analysis) :
  analyze basename (Return m) = AnalysisOk a →
  match first_tempo (mid_tracks m) with
  | Some tempo => ∃ bpm, tempo2bpm tempo = Return bpm ∧
                         estimated_tempo a = Some (round2 bpm)
  | None => estimated_tempo a = Some (Q2Qc 120)
  end ∧
  estimated_key a = Some (default "C"%string (first_key (mid_tracks m))).
Proof.
  intros H. apply analyze_ok_inv in H as (m' & len & a1 & [= <-] & _ & Hrun & ->).
  destruct (analyze_tracks_meta _ _ _ _ [] Hrun) as [Ht Hk]; [constructor|].
  simpl in Ht, Hk. unfold first_tempo, first_key, estimate_tempo, estimate_key.
  simpl. unfold estimate_tempo, estimate_key. split.
  - destruct Ht as [|tc tempo tcs tempos (bpm & Hb & Htc) _]; simpl; [done|].
    exists bpm. by rewrite Htc.
  - rewrite <- Hk. by destruct (key_signatures a1).
Qed.

End Files.

(** * The catalog *)

Import CatalogSpec.

(** ** Substrings *)

Lemma str_prefix_spec (sub s : string) :
  String.prefix sub s = true ↔ ∃ post, s = (sub ++ post)%string.
Proof.
  revert s; induction sub as [|c sub IH]; intros s.
  - split; [intros _; by exists s|intros _; by destruct s].
  - destruct s as [|c' s]; simpl.
    + split; [done|]. by intros [post [=]].
    + destruct (ascii_dec c c') as [->|Hne].
      * rewrite IH. split; [by intros [post ->]; exists post|].
        intros [post [= ->]]. by exists post.
      * split; [done|]. intros [post [= -> _]]. done.
Qed.

Lemma str_contains_spec (sub s : string) :
  str_contains sub s = true ↔ occurs_in sub s.
Proof.
  unfold occurs_in. induction s as [|c s IH].
  - change (str_contains sub "") with (String.prefix sub "" || false).
    rewrite orb_false_r, str_prefix_spec. split.
    + intros [post ->]. by exists ""%string, post.
    + intros ([|c pre] & post & H); [by exists post|done].
  - change (str_contains sub (String c s))
      with (String.prefix sub (String c s) || str_contains sub s).
    rewrite orb_true_iff, IH, str_prefix_spec. split.
    + intros [[post ->]|(pre & post & ->)].
      * by exists ""%string, post.
      * by exists (String c pre), post.
    + intros ([|c' pre] & post & H).
      * left. by exists post.
      * right. change (String c s = String c' (pre ++ sub ++ post)%string) in H.
        injection H as -> ->. by exists pre, post.
Qed.

(** ** The nine categories *)

Lemma categorize_nine (d : analysis_dict) :
  categorize_chord_set d ∈ Cli.categories.
Proof.
  unfold categorize_chord_set, Cli.categories.
  repeat case_bool_decide; simpl; rewrite !elem_of_cons; tauto.
Qed.

(** X6: the classifier never leaves the nine directories that
    [process_chord_sets] creates, and these are nine different ones:
    whatever the analysis, the file is copied into a directory that
    exists. *)
Theorem categorize_in_categories (d : analysis_dict) :
  categorize_chord_set d ∈ Cli.categories ∧
  NoDup Cli.categories ∧ List.length Cli.categories = 9%nat.
Proof.
  split; [apply categorize_nine|]. split; [|done].
  apply (bool_decide_unpack _). by vm_compute.
Qed.

Lemma Qc_bucket_facts (tempo : Qc) :
  ((tempo < Q2Qc 80)%Qc → ¬ (Q2Qc 140 < tempo)%Qc) ∧
  ((tempo < Q2Qc 80)%Qc → ¬ (Q2Qc 80 <= tempo)%Qc) ∧
  ((Q2Qc 140 < tempo)%Qc → ¬ (tempo <= Q2Qc 140)%Qc) ∧
  (¬ (tempo < Q2Qc 80)%Qc → (Q2Qc 80 <= tempo)%Qc) ∧
  (¬ (Q2Qc 140 < tempo)%Qc → (tempo <= Q2Qc 140)%Qc).
Proof.
  split; [|split; [|split; [|split]]].
  - intros Ha Hb. apply (Qclt_not_le _ _ Hb), Qclt_le_weak.
    eapply Qclt_trans; [exact Ha|done].
  - apply Qclt_not_le.
  - apply Qclt_not_le.
  - apply Qcnot_lt_le.
  - apply Qcnot_lt_le.
Qed.

(** The tempo bucket can be read off the category. *)
Lemma categorize_buckets (d : analysis_dict) :
  (str_contains "slow" (categorize_chord_set d) = true ↔
   (get_estimated_tempo d < Q2Qc 80)%Qc) ∧
  (str_contains "fast" (categorize_chord_set d) = true ↔
   (Q2Qc 140 < get_estimated_tempo d)%Qc) ∧
  (str_contains "medium" (categorize_chord_set d) = true ↔
   (Q2Qc 80 <= get_estimated_tempo d)%Qc ∧
   (get_estimated_tempo d <= Q2Qc 140)%Qc).
Proof.
  destruct (Qc_bucket_facts (get_estimated_tempo d)) as (F1 & F2 & F3 & F4 & F5).
  unfold categorize_chord_set.
  repeat case_bool_decide;
    repeat match goal with
           | |- context [str_contains ?a ?b] =>
               let r := eval vm_compute in (str_contains a b) in
               change (str_contains a b) with r
           end;
    intuition done.
Qed.

(** ** The processing run *)

Lemma produced_from_cons (self : processor) (f : midi_path)
  (files : list midi_path) (r : chord_set_info) :
  produced_from self files r → produced_from self (f :: files) r.
Proof. intros (f' & d & Hf & Hd & ->). exists f', d. split; [by right|done]. Qed.

Lemma in_category_app (k : string) (rs rs' : list chord_set_info) :
  in_category k (rs ++ rs') = in_category k rs ++ in_category k rs'.
Proof. unfold in_category. apply List.filter_app. Qed.

Lemma for_each_cons {S X} (body : S → X → result S) (x : X) (xs : list X)
  (s : S) :
  for_each body (x :: xs) s = Exn.bind (body s x) (for_each body xs).
Proof. reflexivity. Qed.

Section Processing.

Variable bytes : Type.
Variable tempo2bpm : Z -> result Qc.
Variable round2 : Qc -> Qc.
Variable parse_midi : bytes -> result MidiFile.
Variable json_dump : catalog -> bytes.

Abbreviation loop_body :=
  (process_file bytes tempo2bpm round2 parse_midi).
Abbreviation process :=
  (process_chord_sets bytes tempo2bpm round2 parse_midi json_dump).
Abbreviation analysis_of fs f :=
  (analyze_chord_midi tempo2bpm round2 (mp_name f)
     (do b <- read_file bytes fs (mp_path f); parse_midi b)).

(** One iteration skips a file whose analysis is an error, or files its
    record and copies its bytes, or, when the file already lies at the
    path it would be copied to, raises the same-file error. *)
Lemma process_file_cases (self : processor) (c : catalog) (names : list string)
  (fs : gmap string bytes) (f : midi_path) :
  let d := analysis_of fs f in
  let r := record_of self f d in
  (has_error d = true ∧ loop_body self (c, names, fs) f = Return (c, names, fs)) ∨
  (has_error d = false ∧ mp_path f ≠ storage_path r ∧
   ∃ b, fs !! mp_path f = Some b ∧
        loop_body self (c, names, fs) f =
        Return (append_category (append_chord_set c r) (categorize_chord_set d) r,
                names ++ [mp_name f],
                <[storage_path r := b]> fs)) ∨
  (has_error d = false ∧ mp_path f = storage_path r ∧
   loop_body self (c, names, fs) f =
   Raise (same_file_error (mp_path f) (mp_path f))).
Proof.
  intros d r. unfold process_file. fold d.
  destruct (has_error d) eqn:Herr; simpl; [by left|right].
  unfold copy2, read_file.
  destruct (fs !! mp_path f) as [b|] eqn:Hb.
  - simpl. case_bool_decide as Hsame.
    + right. split; [done|]. split; [done|]. by rewrite <- Hsame.
    + left. split; [done|]. split; [done|]. exists b. by split.
  - exfalso. unfold d, read_file in Herr. by rewrite Hb in Herr.
Qed.

(** What the loop adds to the catalog and to the file system. *)
Lemma process_loop (self : processor) (files : list midi_path)
  (c c' : catalog) (names names' : list string) (fs fs' : gmap string bytes)
  (rs : list chord_set_info) :
  for_each (loop_body self) files (c, names, fs) = Return (c', names', fs') →
  chord_sets c = Some rs →
  Forall (λ r, is_Some (fs !! storage_path r)) rs →
  (∀ k, categories c !! k = index_entry k rs) →
  ∃ new,
    chord_sets c' = Some (rs ++ new) ∧
    Forall (produced_from self files) new ∧
    map original_path new `sublist_of` map mp_path files ∧
    Forall (λ r, is_Some (fs' !! storage_path r)) (rs ++ new) ∧
    (∀ k, categories c' !! k = index_entry k (rs ++ new)) ∧
    total_files c' = total_files c ∧ processed_at c' = processed_at c ∧
    (∀ p, is_Some (fs !! p) → is_Some (fs' !! p)).
Proof.
  revert c names fs rs; induction files as [|f files IH];
    intros c names fs rs Hrun Hrs Hfs Hidx.
  - simpl in Hrun. injection Hrun as <- <- <-. exists [].
    rewrite app_nil_r. repeat split; (done || constructor).
  - rewrite for_each_cons in Hrun.
    destruct (process_file_cases self c names fs f)
      as [[_ Hstep]|[(Herr & _ & b & Hb & Hstep)|(_ & _ & Hstep)]];
      rewrite Hstep in Hrun; unfold Exn.bind in Hrun; [| |done].
    + destruct (IH _ _ _ _ Hrun Hrs Hfs Hidx)
        as (new & ? & Hnew & Hsub & ? & ? & ? & ? & ?).
      exists new. repeat split; try done.
      * eapply Forall_impl; [exact Hnew|]. apply produced_from_cons.
      * by apply sublist_cons.
    + set (d := analysis_of fs f) in *. set (r := record_of self f d) in *.
      assert (Forall (λ r0, is_Some (<[storage_path r := b]> fs !! storage_path r0))
                (rs ++ [r])) as Hfs1.
      { apply Forall_app. split.
        - eapply Forall_impl; [exact Hfs|]. intros r0 Hr0. simpl in Hr0.
          rewrite lookup_insert. case_decide; [by eexists|done].
        - constructor; [|constructor]. rewrite lookup_insert_eq. by eexists. }
      assert (∀ k, categories (append_category (append_chord_set c r)
                                 (categorize_chord_set d) r) !! k =
                   index_entry k (rs ++ [r])) as Hidx1.
      { intros k. unfold append_category, append_chord_set, index_entry. simpl.
        rewrite in_category_app. unfold in_category at 2. simpl.
        destruct (decide (k = categorize_chord_set d)) as [->|Hne].
        - rewrite lookup_insert_eq, bool_decide_true by done.
          specialize (Hidx (categorize_chord_set d)). unfold index_entry in Hidx.
          destruct (categories c !! categorize_chord_set d) as [l|] eqn:El.
          + rewrite El. simpl.
            destruct (in_category (categorize_chord_set d) rs); [done|].
            by injection Hidx as ->.
          + rewrite lookup_insert_eq. simpl.
            by destruct (in_category (categorize_chord_set d) rs).
        - rewrite bool_decide_false by congruence. rewrite app_nil_r.
          rewrite lookup_insert_ne by done.
          destruct (categories c !! categorize_chord_set d);
            rewrite ?lookup_insert_ne by done; apply Hidx. }
      assert (chord_sets (append_category (append_chord_set c r)
                            (categorize_chord_set d) r) = Some (rs ++ [r])) as Hrs1.
      { simpl. by rewrite Hrs. }
      destruct (IH _ _ _ _ Hrun Hrs1 Hfs1 Hidx1)
        as (new & Hc' & Hnew & Hsub & Hfs' & Hidx' & Ht & Hp & Hkeep).
      exists (r :: new). rewrite <- app_assoc in Hc', Hfs', Hidx'.
      repeat split; try done.
      * constructor.
        -- exists f, d. split; [left|done].
        -- eapply Forall_impl; [exact Hnew|]. apply produced_from_cons.
      * simpl. by apply sublist_skip.
      * intros p Hp'. apply Hkeep. rewrite lookup_insert.
        case_decide; [by eexists|done].
Qed.


(** A run that returns. *)
Lemma process_chord_sets_inv (self : processor) (cwd : string)
  (files : list midi_path) (fs fs' : gmap string bytes) (c : catalog) :
  process self cwd files fs = Return (c, fs') →
  ∃ fs1 names records,
    for_each (loop_body self) files
      (Catalog cwd (List.length files) (Some []) ∅, [], fs) =
      Return (c, names, fs1) ∧
    fs' = <[catalog_path self := json_dump c]> fs1 ∧
    chord_sets c = Some records ∧
    Forall (produced_from self files) records ∧
    map original_path records `sublist_of` map mp_path files ∧
    Forall (λ r, is_Some (fs1 !! storage_path r)) records ∧
    (∀ k, categories c !! k = index_entry k records) ∧
    total_files c = List.length files ∧ processed_at c = cwd ∧
    (∀ p, is_Some (fs !! p) → is_Some (fs1 !! p)).
Proof.
  unfold process_chord_sets.
  destruct (for_each _ _ _) as [[[c1 names] fs1]|e] eqn:Hrun; simpl; [|done].
  intros [= <- <-].
  destruct (process_loop _ _ _ _ _ _ _ _ [] Hrun)
    as (new & ? & ? & ? & ? & ? & ? & ? & ?); try done.
  exists fs1, names, new. by repeat split.
Qed.


(** X8: every record of the catalog that a run returns was built for one
    of the files it was given, from an analysis without error: its
    category is the one the classifier gives that analysis, its storage
    path is the file's name under that category's directory, and the file
    is there after the run.  The records follow the order of the files,
    each file giving at most one, so there are at most [total_files]. *)
Theorem catalog_records_produced (self : processor) (cwd : string)
  (files : list midi_path) (fs fs' : gmap string bytes) (c : catalog) :
  process self cwd files fs = Return (c, fs') →
  ∃ records,
    chord_sets c = Some records ∧
    Forall (produced_from self files) records ∧
    map original_path records `sublist_of` map mp_path files ∧
    Forall (λ r, is_Some (fs' !! storage_path r)) records ∧
    (List.length records ≤ total_files c)%nat.
Proof.
  intros Hp.
  destruct (process_chord_sets_inv self cwd files fs fs' c Hp)
    as (fs1 & names & records & _ & -> & Hrs & Hprod & Hsub & Hfs & _ & Ht & _).
  exists records. do 3 (split; [done|]). split.
  - eapply Forall_impl; [exact Hfs|]. intros r Hr. simpl in Hr.
    rewrite lookup_insert. case_decide; [by eexists|done].
  - rewrite Ht. apply sublist_length in Hsub. by rewrite !length_map in Hsub.
Qed.

(** X9: the ["categories"] index of a returned catalog agrees with its
    record list: a category has an entry exactly when some record has it,
    the entry lists these records in their order, and every category that
    has an entry is one of the nine. *)
Theorem catalog_index_consistent (self : processor) (cwd : string)
  (files : list midi_path) (fs fs' : gmap string bytes) (c : catalog) :
  process self cwd files fs = Return (c, fs') →
  ∃ records,
    chord_sets c = Some records ∧
    (∀ k, categories c !! k = index_entry k records) ∧
    (∀ k l, categories c !! k = Some l →
            l = in_category k records ∧ l ≠ [] ∧ k ∈ Cli.categories).
Proof.
  intros Hp.
  destruct (process_chord_sets_inv self cwd files fs fs' c Hp)
    as (fs1 & names & records & _ & _ & Hrs & Hprod & _ & _ & Hidx & _).
  exists records. do 2 (split; [done|]).
  intros k l Hk. rewrite Hidx in Hk. unfold index_entry in Hk.
  destruct (in_category k records) as [|r l'] eqn:E; [done|].
  injection Hk as <-. do 2 (split; [done|]).
  assert (r ∈ in_category k records) as Hr by (rewrite E; left).
  apply elem_of_List_filter in Hr as [Hr Hcat].
  apply bool_decide_eq_true in Hcat.
  rewrite list.Forall_forall in Hprod.
  destruct (Hprod r Hr) as (f & d & _ & _ & ->).
  simpl in Hcat. injection Hcat as <-. apply categorize_nine.
Qed.

End Processing.

(** ** The query *)

Lemma List_filter_sublist {A} (f : A → bool) (l : list A) :
  List.filter f l `sublist_of` l.
Proof.
  induction l as [|x l IH]; simpl; [done|].
  destruct (f x); [by apply sublist_skip|by apply sublist_cons].
Qed.

Lemma occurs_in_empty (sub : string) : occurs_in sub "" → sub = ""%string.
Proof.
  intros ([|c pre] & post & H); [|done].
  destruct sub; [done|discriminate H].
Qed.

Lemma str_truthy_Some (arg : option string) :
  str_truthy arg = true → ∃ c s, arg = Some (String c s).
Proof. destruct arg as [[|c s]|]; try done. by exists c, s. Qed.

Section Listing.

Variable bytes : Type.
Variable json_load : bytes -> result catalog.

Abbreviation listing := (get_chord_sets_by_category bytes json_load).

(** The result of the query on a catalog that loads, written with the two
    tests as they are applied. *)
Lemma listing_loaded (self : processor) (arg : option string)
  (range : option (Qc * Qc)) (fs : gmap string bytes) (b : bytes) (c : catalog) :
  fs !! catalog_path self = Some b →
  json_load b = Return c →
  listing self arg range fs =
  Return
    (let kept :=
       if str_truthy arg then
         List.filter (λ r, str_contains (default ""%string arg)
                             (default ""%string (category r)))
           (default [] (chord_sets c))
       else default [] (chord_sets c) in
     match range with
     | Some (lo, hi) =>
         List.filter (λ r, bool_decide (lo <= cs_estimated_tempo r)%Qc &&
                           bool_decide (cs_estimated_tempo r <= hi)%Qc) kept
     | None => kept
     end).
Proof.
  intros Hfs Hload. unfold get_chord_sets_by_category. rewrite Hfs, Hload.
  simpl. by destruct range as [[lo hi]|].
Qed.

(** X10: without a tempo range, the query keeps the records whose category
    contains the given string somewhere; a record without a category is
    never kept by a non-empty string, and no string or the empty string
    keeps every record. *)
Theorem category_filter_substring (self : processor) (arg : option string)
  (fs : gmap string bytes) (b : bytes) (c : catalog) :
  fs !! catalog_path self = Some b →
  json_load b = Return c →
  ∃ kept,
    listing self arg None fs = Return kept ∧
    (∀ r, r ∈ kept ↔
          r ∈ default [] (chord_sets c) ∧
          (str_truthy arg = true → category_has (default ""%string arg) r)) ∧
    (str_truthy arg = true → Forall (λ r, is_Some (category r)) kept) ∧
    (str_truthy arg = false → kept = default [] (chord_sets c)).
Proof.
  intros Hfs Hload. rewrite (listing_loaded _ _ _ _ _ _ Hfs Hload).
  eexists. split; [reflexivity|]. simpl.
  destruct (str_truthy arg) eqn:Harg.
  - split; [|split; [|done]].
    + intros r. rewrite elem_of_List_filter, str_contains_spec.
      unfold category_has. split; [intros [? ?]; by split|].
      intros [? H]. split; [done|]. by apply H.
    + intros _. apply list.Forall_forall. intros r Hr.
      apply elem_of_List_filter in Hr as [_ Hr].
      apply str_contains_spec in Hr.
      destruct (category r) as [k|]; [by eexists|]. simpl in Hr.
      apply occurs_in_empty in Hr.
      apply str_truthy_Some in Harg as (ch & s & ->). done.
  - split; [|split; done]. intros r. split; [by intros ?|by intros [? _]].
Qed.

(** X11: whatever the two filters are, the query returns the empty list
    when there is no catalog file, raises what [json.load] raises when the
    file does not load, and otherwise returns records of the catalog, in
    the order of the catalog and none more often than it is there. *)
Theorem query_returns_sublist (self : processor) (arg : option string)
  (range : option (Qc * Qc)) (fs : gmap string bytes) :
  match fs !! catalog_path self with
  | None => listing self arg range fs = Return []
  | Some b =>
      match json_load b with
      | Raise e => listing self arg range fs = Raise e
      | Return c =>
          ∃ kept, listing self arg range fs = Return kept ∧
                  kept `sublist_of` default [] (chord_sets c)
      end
  end.
Proof.
  destruct (fs !! catalog_path self) as [b|] eqn:Hfs.
  - destruct (json_load b) as [c|e] eqn:Hload.
    + rewrite (listing_loaded _ _ _ _ _ _ Hfs Hload).
      eexists. split; [reflexivity|]. simpl.
      assert ((if str_truthy arg then
                 List.filter (λ r, str_contains (default ""%string arg)
                                     (default ""%string (category r)))
                   (default [] (chord_sets c))
               else default [] (chord_sets c))
              `sublist_of` default [] (chord_sets c)) as Hcat.
      { destruct (str_truthy arg); [apply List_filter_sublist|done]. }
      destruct range as [[lo hi]|]; [|done].
      etrans; [apply List_filter_sublist|done].
    + unfold get_chord_sets_by_category. by rewrite Hfs, Hload.
  - unfold get_chord_sets_by_category. by rewrite Hfs.
Qed.

End Listing.

(** ** Processing, then listing *)

Lemma bool_eq_iff (b : bool) (P : Prop) `{Decision P} :
  (b = true ↔ P) → b = bool_decide P.
Proof.
  intros HP. destruct b; symmetry.
  - apply bool_decide_eq_true. by apply HP.
  - apply bool_decide_eq_false. intros HP'. by apply HP in HP'.
Qed.

Section ProcessThenList.

Variable bytes : Type.
Variable tempo2bpm : Z -> result Qc.
Variable round2 : Qc -> Qc.
Variable parse_midi : bytes -> result MidiFile.
Variable json_dump : catalog -> bytes.
Variable json_load : bytes -> result catalog.

(** X12: in the catalog that a processing run leaves on disk, the tempo
    bucket of the category and the estimated tempo say the same: listing
    the category "slow" gives the records with an estimated tempo below
    80, "fast" those above 140 and "medium" those from 80 to 140, each in
    catalog order. *)
Theorem category_listing_is_tempo_bucket (self : processor) (cwd : string)
  (files : list midi_path) (fs fs' : gmap string bytes) (c : catalog) :
  (∀ doc, json_load (json_dump doc) = Return doc) →
  process_chord_sets bytes tempo2bpm round2 parse_midi json_dump
    self cwd files fs = Return (c, fs') →
  ∃ records,
    chord_sets c = Some records ∧
    get_chord_sets_by_category bytes json_load self (Some "slow"%string) None fs' =
      Return (List.filter
                (λ r, bool_decide (cs_estimated_tempo r < Q2Qc 80)%Qc) records) ∧
    get_chord_sets_by_category bytes json_load self (Some "fast"%string) None fs' =
      Return (List.filter
                (λ r, bool_decide (Q2Qc 140 < cs_estimated_tempo r)%Qc) records) ∧
    get_chord_sets_by_category bytes json_load self (Some "medium"%string) None fs' =
      Return (List.filter
                (λ r, bool_decide ((Q2Qc 80 <= cs_estimated_tempo r)%Qc ∧
                                   (cs_estimated_tempo r <= Q2Qc 140)%Qc))
                records).
Proof.
  intros Hcodec Hp.
  destruct (process_chord_sets_inv bytes tempo2bpm round2 parse_midi json_dump
              self cwd files fs fs' c Hp)
    as (fs1 & names & records & _ & -> & Hrs & Hprod & _).
  exists records. split; [done|].
  assert (∀ r, In r records →
    (str_contains "slow" (default ""%string (category r)) =
     bool_decide (cs_estimated_tempo r < Q2Qc 80)%Qc) ∧
    (str_contains "fast" (default ""%string (category r)) =
     bool_decide (Q2Qc 140 < cs_estimated_tempo r)%Qc) ∧
    (str_contains "medium" (default ""%string (category r)) =
     bool_decide ((Q2Qc 80 <= cs_estimated_tempo r)%Qc ∧
                  (cs_estimated_tempo r <= Q2Qc 140)%Qc))) as Hsame.
  { intros r Hr%list_elem_of_In. rewrite list.Forall_forall in Hprod.
    destruct (Hprod r Hr) as (f & d & _ & _ & ->).
    destruct (categorize_buckets d) as (Hs & Hf & Hm).
    unfold cs_estimated_tempo. simpl.
    split; [|split]; by apply bool_eq_iff. }
  rewrite !(listing_loaded bytes json_load self _ None _ (json_dump c) c);
    try done; try apply lookup_insert_eq.
  simpl. rewrite Hrs. simpl.
  split; [|split]; f_equal; apply filter_ext_in; intros r Hr; by apply Hsame.
Qed.

(** X13: the [--list] branch of [main] applies the tempo range only when
    both bounds are given and neither is zero; then it lists the records
    within the bounds, bounds included.  With [--tempo-min 0], or with one
    bound left out, it lists the records of every tempo. *)
Theorem main_list_tempo_range (cat : option string) (lo hi : option Z)
  (cwd : string) (files : list midi_path)
  (fs : gmap string bytes) (b : bytes) (c : catalog) :
  let self := init "attached_assets" "storage/midi/templates" in
  let run a := Cli.main bytes tempo2bpm round2 parse_midi json_dump json_load
                 a cwd files fs in
  fs !! catalog_path self = Some b →
  json_load b = Return c →
  ∃ all,
    get_chord_sets_by_category bytes json_load self cat None fs = Return all ∧
    run (Cli.Args false true cat lo hi) =
      Return (Cli.Listed
        (if Cli.int_truthy lo && Cli.int_truthy hi then
           List.filter
             (λ r, bool_decide
                     (in_tempo_range (Cli.int_to_Qc (default 0 lo))
                        (Cli.int_to_Qc (default 0 hi)) r)) all
         else all)) ∧
    run (Cli.Args false true cat (Some 0) hi) = Return (Cli.Listed all) ∧
    run (Cli.Args false true cat lo (Some 0)) = Return (Cli.Listed all) ∧
    run (Cli.Args false true cat None hi) = Return (Cli.Listed all) ∧
    run (Cli.Args false true cat lo None) = Return (Cli.Listed all).
Proof.
  intros self run Hfs Hload. unfold run, Cli.main, Cli.tempo_range_of. simpl.
  fold self.
  rewrite !(listing_loaded bytes json_load self _ _ _ b c) by done.
  eexists. split; [reflexivity|]. simpl.
  rewrite !andb_false_r. simpl.
  split; [|by destruct (Cli.int_truthy lo)].
  destruct (Cli.int_truthy lo && Cli.int_truthy hi); [|done].
  simpl. do 2 f_equal. apply filter_ext. intros r. unfold in_tempo_range.
  repeat case_bool_decide; simpl; try done; tauto.
Qed.

End ProcessThenList.

(** * Text files *)

Import WalkSpec.

Section Words.

#[local] Open Scope string_scope.

Lemma has_space_snoc (w : string) (c : ascii) :
  has_space (w ++ String c "") = has_space w || is_space c.
Proof.
  induction w as [|c' w IH].
  - change (has_space (String c "") = false || is_space c).
    simpl. by rewrite orb_false_r.
  - change (is_space c' || has_space (w ++ String c "") =
            is_space c' || has_space w || is_space c).
    by rewrite IH, orb_assoc.
Qed.

Lemma snoc_not_empty (w : string) (c : ascii) : w ++ String c "" ≠ "".
Proof. by destruct w. Qed.

(** The words of [split]: none is empty, none has a white space. *)
Lemma split_from_words (s word : string) :
  has_space word = false →
  Forall (λ w, w ≠ "" ∧ has_space w = false) (split_from word s).
Proof.
  revert word; induction s as [|c s IH]; intros word Hword; simpl.
  - destruct word; repeat constructor; done.
  - destruct (is_space c) eqn:Hc.
    + destruct word; [by apply IH|]. constructor; [done|by apply IH].
    + apply IH. by rewrite has_space_snoc, Hword, Hc.
Qed.

Lemma split_from_lstrip (s : string) :
  split_from "" (lstrip s) = split_from "" s.
Proof.
  induction s as [|c s IH]; simpl; [done|].
  destruct (is_space c) eqn:Hc; [done|]. simpl. by rewrite Hc.
Qed.

Lemma split_from_cons (word : string) (c : ascii) (s : string) :
  split_from word (String c s) =
  if is_space c then
    match word with
    | "" => split_from "" s
    | _ => word :: split_from "" s
    end
  else split_from (word ++ String c "") s.
Proof. reflexivity. Qed.

Lemma rstrip_cons (c : ascii) (s : string) :
  rstrip (String c s) =
  match rstrip s with
  | "" => if is_space c then "" else String c ""
  | r => String c r
  end.
Proof. reflexivity. Qed.

Lemma split_from_rstrip (s word : string) :
  split_from word (rstrip s) = split_from word s.
Proof.
  revert word; induction s as [|c s IH]; intros word; [done|].
  rewrite rstrip_cons, (split_from_cons word c s).
  destruct (rstrip s) as [|c' r] eqn:Hr.
  - destruct (is_space c) eqn:Hc.
    + rewrite <- (IH ""). by destruct word.
    + rewrite split_from_cons, Hc, <- IH. reflexivity.
  - rewrite (split_from_cons word c (String c' r)), <- !IH. reflexivity.
Qed.

Lemma split_strip (s : string) : split (strip s) = split s.
Proof.
  unfold split, strip. by rewrite split_from_rstrip, split_from_lstrip.
Qed.

Lemma chord_patterns_filter (lines : list string) :
  chord_patterns lines =
  List.filter (λ p, match p with [] => false | _ => true end)
    (map potential_chords lines).
Proof.
  induction lines as [|line lines IH]; simpl; [done|].
  destruct (potential_chords line); by rewrite IH.
Qed.

Lemma potential_chords_words (line : string) :
  Forall chord_word (potential_chords line).
Proof.
  unfold potential_chords. apply list.Forall_forall. intros w Hw.
  apply elem_of_List_filter in Hw as [Hw Hacc].
  pose proof (split_from_words (strip line) "" eq_refl) as Hall.
  rewrite list.Forall_forall in Hall. destruct (Hall w Hw). by split.
Qed.

Lemma str_take_prefix (n : nat) (s : string) :
  String.prefix (str_take n s) s = true ∧
  String.length (str_take n s) = Nat.min n (String.length s).
Proof.
  unfold str_take. revert n; induction s as [|c s IH]; intros [|n]; simpl;
    try done.
  destruct (IH n) as [-> ->]. by destruct (ascii_dec c c).
Qed.

(** X14: a text file that cannot be read gives no record.  One that can
    gives a record with its name; the progressions are, line by line, the
    accepted words of the lines that have any, so no progression is empty
    and every word in one is accepted, not empty and free of white space;
    the raw content is the start of the file, 500 characters at most. *)
Theorem text_record_contents (name : string) (read : result string) :
  match read with
  | Raise _ => _process_text_chords name read = None
  | Return content =>
      let lines := split_on "010"%char content in
      ∃ patterns raw,
        _process_text_chords name read = Some (TextProg name patterns raw) ∧
        patterns =
          List.filter (λ p, match p with [] => false | _ => true end)
            (map potential_chords lines) ∧
        Forall (λ p, p ≠ [] ∧ Forall chord_word p) patterns ∧
        (List.length patterns ≤ List.length lines)%nat ∧
        String.prefix raw content = true ∧
        String.length raw = Nat.min 500 (String.length content)
  end.
Proof.
  destruct read as [content|e]; [|done]. intros lines.
  exists (chord_patterns lines), (str_take 500 content).
  split; [done|]. split; [apply chord_patterns_filter|].
  rewrite chord_patterns_filter. split; [|split].
  - apply list.Forall_forall. intros p Hp.
    apply elem_of_List_filter in Hp as [Hp Hne].
    split; [by destruct p|].
    apply list_elem_of_fmap in Hp as (line & -> & _).
    apply potential_chords_words.
  - etrans; [apply sublist_length, List_filter_sublist|].
    by rewrite length_map.
  - apply str_take_prefix.
Qed.

(** X15: stripping a line before splitting it changes nothing: the words
    kept for a line are the accepted ones among the words of the line as it
    stands. *)
Theorem strip_before_split_is_redundant (line : string) :
  split (strip line) = split line ∧
  potential_chords line = List.filter _is_chord_symbol (split line).
Proof.
  split; [apply split_strip|]. unfold potential_chords. by rewrite split_strip.
Qed.

(** The heuristic looks at the first two characters only. *)
Lemma is_chord_symbol_two (t : string) :
  _is_chord_symbol t = _is_chord_symbol (str_take 2 t).
Proof. by destruct t as [|c0 [|c1 t]]. Qed.

(** The heuristic as a test of the first character, or of the first two. *)
Lemma is_chord_symbol_cons (c0 : ascii) (x : string) :
  _is_chord_symbol (String c0 x) =
  char_in c0 chord_roots ||
  match x with
  | String c1 _ => char_in c0 ["b"; "#"]%char && char_in c1 chord_roots
  | "" => false
  end.
Proof.
  unfold _is_chord_symbol.
  change (String.length (String c0 x) <? 1)%nat with false.
  destruct (char_in c0 chord_roots); [done|].
  destruct x as [|c1 x]; [done|].
  change (1 <? String.length (String c0 (String c1 x)))%nat with true.
  by destruct (char_in c0 ["b"; "#"]%char), (char_in c1 chord_roots).
Qed.

(** X16: the heuristic reads at most the first two characters of a token,
    so whatever follows an accepted token, the longer token is accepted
    too: no modifier is ever checked. *)
Theorem chord_symbol_prefix_closed (t s : string) :
  _is_chord_symbol t = _is_chord_symbol (str_take 2 t) ∧
  (_is_chord_symbol t = true → _is_chord_symbol (t ++ s) = true).
Proof.
  split; [apply is_chord_symbol_two|].
  destruct t as [|c0 [|c1 t]]; [done| |].
  - change (String c0 "" ++ s) with (String c0 s).
    rewrite !is_chord_symbol_cons, orb_false_r. by intros ->.
  - change (String c0 (String c1 t) ++ s) with (String c0 (String c1 (t ++ s))).
    by rewrite !is_chord_symbol_cons.
Qed.

End Words.

(** * The walk over an extracted archive *)

Lemma omap_length_filter {A B} (g : A → option B) (p : A → bool) (l : list A) :
  (∀ x y, g x = Some y → p x = true) →
  (List.length (omap g l) ≤ List.length (List.filter p l))%nat.
Proof.
  intros Hgp. induction l as [|x l IH]; simpl; [done|].
  destruct (g x) as [y|] eqn:E.
  - rewrite (Hgp x y E). simpl. apply le_n_S, IH.
  - destruct (p x); simpl; [apply le_S, IH|apply IH].
Qed.

Section WalkProofs.

#[local] Open Scope string_scope.

Variable J : Type.
Variable midi_chords : file_entry -> result (list string * Z).
Variable json_load : string -> result J.

Abbreviation walk_body := (analyze_entry J midi_chords json_load).
Abbreviation walk := (_analyze_chord_files J midi_chords json_load).
Abbreviation record_for := (entry_record J midi_chords json_load).

(** Each leaf processor gives a dictionary of its own kind, never an empty
    one. *)
Lemma midi_record_kind (f : file_entry) (d : prog_data) :
  _process_midi_chords midi_chords f = Some d →
  format_of d = "MIDI" ∧ truthy (Some d) = true.
Proof.
  unfold _process_midi_chords. destruct (midi_chords f); simpl; [|done].
  by intros [= <-].
Qed.

Lemma text_record_kind (name : string) (read : result string) (d : prog_data) :
  _process_text_chords name read = Some d →
  format_of d = "Text" ∧ truthy (Some d) = true.
Proof.
  unfold _process_text_chords. destruct read; simpl; [|done]. by intros [= <-].
Qed.

Lemma json_record_kind (f : file_entry) (d : prog_data) :
  _process_json_chords J json_load f = Some d →
  format_of d = "JSON" ∧ truthy (Some d) = true.
Proof.
  unfold _process_json_chords. destruct (fe_read f); simpl; [|done].
  destruct (json_load a); simpl; [|done]. by intros [= <-].
Qed.

Lemma collect_kind (st : list prog_data * metadata) (o : option prog_data)
  (fmt : string) :
  (∀ d, o = Some d → format_of d = fmt ∧ truthy (Some d) = true) →
  collect st o fmt =
  ((st.1 ++ option_list o)%list,
   Metadata (file_count st.2)
     (formats st.2 ++ map format_of (option_list o))%list).
Proof.
  intros Hkind. destruct st as [progs [n fmts]]. unfold collect.
  destruct o as [d|]; simpl.
  - destruct (Hkind d eq_refl) as [<- Ht]. simpl in Ht. by rewrite Ht.
  - by rewrite !app_nil_r.
Qed.

Lemma walk_body_record (st : list prog_data * metadata) (f : file_entry) :
  walk_body st f =
  ((st.1 ++ option_list (record_for f))%list,
   Metadata (file_count st.2 + (if fe_is_file f then 1 else 0))
     (formats st.2 ++ map format_of (option_list (record_for f)))%list).
Proof.
  destruct st as [progs [n fmts]]. unfold analyze_entry, entry_record.
  destruct (fe_is_file f); [|simpl; by rewrite !app_nil_r, Nat.add_0_r].
  cbv zeta.
  destruct (str_in _ [".mid"; ".midi"]).
  { rewrite collect_kind; [done|apply midi_record_kind]. }
  destruct (str_in _ [".txt"; ".chord"]).
  { rewrite collect_kind; [done|apply text_record_kind]. }
  destruct (String.eqb _ ".json").
  { rewrite collect_kind; [done|apply json_record_kind]. }
  simpl. by rewrite !app_nil_r.
Qed.

Lemma walk_fold (dir : list file_entry) (st : list prog_data * metadata) :
  fold_left walk_body dir st =
  ((st.1 ++ omap record_for dir)%list,
   Metadata (file_count st.2 + List.length (List.filter fe_is_file dir))
     (formats st.2 ++ map format_of (omap record_for dir))%list).
Proof.
  revert st; induction dir as [|f dir IH]; intros [progs [n fmts]].
  - simpl. by rewrite !app_nil_r, Nat.add_0_r.
  - change (fold_left walk_body (f :: dir) (progs, Metadata n fmts))
      with (fold_left walk_body dir (walk_body (progs, Metadata n fmts) f)).
    rewrite walk_body_record, IH, !omap_cons_option_list, map_app. simpl.
    rewrite <- !app_assoc. do 2 f_equal.
    destruct (fe_is_file f); simpl; lia.
Qed.

Lemma record_for_is_file (f : file_entry) (d : prog_data) :
  record_for f = Some d → fe_is_file f = true.
Proof. unfold entry_record. by destruct (fe_is_file f). Qed.

Lemma walk_spec (dir : list file_entry) :
  walk dir =
  ChordData (omap record_for dir)
    (Metadata (List.length (List.filter fe_is_file dir))
       (map format_of (omap record_for dir))).
Proof. unfold _analyze_chord_files. by rewrite walk_fold. Qed.

(** X17: the walk handles every entry on its own.  The progressions are
    the records of the entries that give one, in walk order; a directory,
    a file with another suffix and a file whose processor fails give none
    and do not stop the walk.  The formats name the kind of each record in
    the same order, and the file count is the number of files, so it is at
    least the number of progressions. *)
Theorem walk_is_entrywise (dir : list file_entry) :
  progressions (walk dir) = omap record_for dir ∧
  formats (cd_metadata (walk dir)) = map format_of (progressions (walk dir)) ∧
  file_count (cd_metadata (walk dir)) =
    List.length (List.filter fe_is_file dir) ∧
  (List.length (progressions (walk dir)) ≤
   file_count (cd_metadata (walk dir)))%nat.
Proof.
  rewrite walk_spec. simpl. do 3 (split; [done|]).
  apply omap_length_filter, record_for_is_file.
Qed.

(** X18: a successful run of [process_chord_zip] reports as chord count
    the number of formats in its metadata, which is at most the file
    count; the name is the stem of the archive and the output path is that
    name with "_processed.json" under the chord sets directory. *)
Theorem zip_success_counts (dir : string) (run : zip_run)
  (name path : string) (count : nat) (md : metadata) :
  process_chord_zip J midi_chords json_load dir run =
    Success name path count md →
  count = List.length (formats md) ∧
  (count ≤ file_count md)%nat ∧
  name = stem run ∧
  path = dir ++ "/" ++ name ++ "_processed.json".
Proof.
  unfold process_chord_zip. simpl.
  destruct (cleanup run) as [[]|e]; simpl; [|done].
  destruct (extracted run) as [files|e]; simpl; [|done].
  destruct (write_json run _ _) as [[]|e]; simpl; [|done].
  intros [= <- <- <- <-].
  rewrite walk_spec. simpl. rewrite length_map. repeat split.
  apply omap_length_filter, record_for_is_file.
Qed.

End WalkProofs.

(** * The tempo of a MIDI file in the archive *)

Section Tempo.

Variable tempo2bpm : Z -> result Qc.
Variable round2 : Qc -> Qc.

Lemma extract_track_spec (track : list msg) :
  Midi.extract_track tempo2bpm track =
  (λ tempo, do bpm <- tempo2bpm tempo; Return (Midi.int bpm)) <$>
  head (omap tempo_of track).
Proof.
  induction track as [|m track IH]; [done|].
  destruct m; simpl; try apply IH. done.
Qed.

Lemma extract_tempo_spec (tracks : list (list msg)) :
  Midi._extract_tempo tempo2bpm tracks =
  match first_tempo tracks with
  | Some tempo => do bpm <- tempo2bpm tempo; Return (Midi.int bpm)
  | None => Return 120
  end.
Proof.
  unfold first_tempo. induction tracks as [|track tracks IH]; [done|].
  simpl. rewrite extract_track_spec, omap_app.
  destruct (omap tempo_of track) as [|tempo tempos]; simpl; [apply IH|done].
Qed.

(** X19: [_extract_tempo] returns the whole part of the bpm of the first
    tempo message of the file, taken track after track, whatever tempo
    messages follow; 120 when no track has one; and it raises when
    [tempo2bpm] raises on that first message. *)
Theorem extract_tempo_first (tracks : list (list msg)) :
  Midi._extract_tempo tempo2bpm tracks =
  match first_tempo tracks with
  | Some tempo => do bpm <- tempo2bpm tempo; Return (Midi.int bpm)
  | None => Return 120
  end ∧
  (∀ track later, first_tempo [track] ≠ None →
     Midi._extract_tempo tempo2bpm (track :: later) =
     Midi._extract_tempo tempo2bpm [track]) ∧
  (∀ pre t tempo post later,
     omap tempo_of pre = [] →
     Midi._extract_tempo tempo2bpm ((pre ++ set_tempo t tempo :: post) :: later) =
     do bpm <- tempo2bpm tempo; Return (Midi.int bpm)).
Proof.
  split; [apply extract_tempo_spec|]. split.
  - intros track later Hsome. rewrite !extract_tempo_spec.
    unfold first_tempo in *. simpl in *. rewrite app_nil_r in Hsome |- *.
    rewrite omap_app. by destruct (omap tempo_of track).
  - intros pre t tempo post later Hpre. rewrite extract_tempo_spec.
    unfold first_tempo. simpl. by rewrite !omap_app, Hpre.
Qed.

(** X20: the two scripts read the tempo of a file off the same message.
    When the categorizer's analysis of a file succeeds, either the file
    has no tempo message and both give 120, or the categorizer's estimate
    is the rounded bpm of the first tempo message and the ingestor's tempo
    is the whole part of that same bpm. *)
Theorem tempo_estimates_agree (basename : string) (m : MidiFile) (a : analysis) :
  analyze_chord_midi tempo2bpm round2 basename (Return m) = AnalysisOk a →
  (first_tempo (mid_tracks m) = None ∧
   estimated_tempo a = Some (Q2Qc 120) ∧
   Midi._extract_tempo tempo2bpm (mid_tracks m) = Return 120) ∨
  (∃ tempo bpm,
     first_tempo (mid_tracks m) = Some tempo ∧
     tempo2bpm tempo = Return bpm ∧
     estimated_tempo a = Some (round2 bpm) ∧
     Midi._extract_tempo tempo2bpm (mid_tracks m) = Return (Midi.int bpm)).
Proof.
  intros H. apply analyze_ok_inv in H as (m' & len & a1 & [= <-] & _ & Hrun & ->).
  destruct (analyze_tracks_meta _ _ _ _ _ _ [] Hrun) as [Ht _]; [constructor|].
  simpl in Ht. rewrite extract_tempo_spec. unfold first_tempo.
  simpl. unfold estimate_tempo.
  destruct Ht as [|tc tempo tcs tempos (bpm & Hb & Htc) _]; simpl; [by left|].
  right. exists tempo, bpm. by rewrite Hb, Htc.
Qed.

End Tempo.

(** * Generating a MIDI file from chords *)

Section StringFacts.

#[local] Open Scope string_scope.

Lemma str_length_app (s t : string) :
  String.length (s ++ t) = (String.length s + String.length t)%nat.
Proof.
  induction s as [|c s IH]; [done|].
  change (S (String.length (s ++ t)) = S (String.length s + String.length t)).
  by rewrite IH.
Qed.

Lemma str_app_inj_r (s1 s2 t : string) : s1 ++ t = s2 ++ t → s1 = s2.
Proof.
  intros H.
  assert (String.length s1 = String.length s2) as Hlen.
  { apply (f_equal String.length) in H. rewrite !str_length_app in H. lia. }
  revert s2 H Hlen; induction s1 as [|c s1 IH]; intros [|c' s2] H Hlen;
    try done.
  change (String c (s1 ++ t) = String c' (s2 ++ t)) in H.
  injection H as -> H. f_equal. apply IH; [done|]. simpl in Hlen. lia.
Qed.

End StringFacts.

(** X22: the default path depends on the number of chord symbols alone:
    two progressions get the same default path exactly when they have the
    same length, so the second of two such calls overwrites the file of the
    first. *)
Theorem default_path_by_length (symbols symbols' : list string) :
  Midi.default_path symbols = Midi.default_path symbols' ↔
  List.length symbols = List.length symbols'.
Proof.
  unfold Midi.default_path. split; [|by intros ->].
  intros H. apply String.app_inj in H. apply str_app_inj_r in H.
  by apply (inj pretty) in H.
Qed.

Section GenerateProofs.

Variable chord : Type.
Variable Chord : string -> result chord.
Variable bytes : Type.
Variable render : list (Midi.element chord) -> bytes.
Variable writable : string -> result unit.
Variable makedirs : result unit.

Abbreviation generate :=
  (Midi.generate_midi_from_chords chord Chord bytes render writable makedirs).

Lemma add_chords_spec (part : list (Midi.element chord)) (symbols : list string) :
  Midi.add_chords chord Chord part symbols = part ++ omap (resolved Chord) symbols.
Proof.
  revert part; induction symbols as [|s symbols IH]; intros part; simpl.
  - by rewrite app_nil_r.
  - unfold resolved at 1. destruct (Chord s); rewrite IH; [|done].
    by rewrite <- app_assoc.
Qed.

(** X21: what [generate_midi_from_chords] writes is the tempo mark followed
    by the chords of the symbols that resolve, in their order, each a whole
    note long: a symbol that does not resolve is skipped.  It is written to
    the given path, or to the default path when none or the empty one is
    given, and that path is returned; nothing else on disk changes.  When
    creating the directory or writing fails, it returns [None]. *)
Theorem generate_midi_result (symbols : list string) (tempo : Z)
  (output_path : option string) (fs : gmap string bytes) :
  let part := Midi.MetronomeMark tempo :: omap (resolved Chord) symbols in
  let target :=
    if Midi.path_truthy output_path then default ""%string output_path
    else Midi.default_path symbols in
  let prepared := if Midi.path_truthy output_path then Return tt else makedirs in
  match prepared, writable target with
  | Return _, Return _ =>
      generate symbols tempo output_path fs =
      (Some target, <[target := render part]> fs)
  | _, _ => (generate symbols tempo output_path fs).1 = None
  end.
Proof.
  intros part target prepared. unfold Midi.generate_midi_from_chords.
  rewrite add_chords_spec. unfold prepared, target.
  destruct (Midi.path_truthy output_path); simpl.
  - by destruct (writable _) as [[]|].
  - destruct makedirs as [[]|]; simpl; [|done].
    by destruct (writable _) as [[]|].
Qed.

End GenerateProofs.

(** * The order of the chord progression *)

Lemma for_each_invariant_in {S X} (body : S → X → result S) (P : S → Prop)
  (xs : list X) (s s' : S) :
  (∀ s x s', x ∈ xs → P s → body s x = Return s' → P s') →
  P s → for_each body xs s = Return s' → P s'.
Proof.
  revert s; induction xs as [|x xs IH]; intros s Hstep Hs; simpl.
  - by intros [= <-].
  - destruct (body s x) as [s1|e] eqn:E; simpl; [|done].
    apply IH.
    + intros s0 y s0' Hy. apply Hstep. by right.
    + eapply Hstep; [left|exact Hs|exact E].
Qed.

Lemma StronglySorted_weaken {A} (R R' : A → A → Prop) (Q : A → Prop)
  (l : list A) :
  (∀ x y, Q x → Q y → R x y → R' x y) →
  Forall Q l → StronglySorted R l → StronglySorted R' l.
Proof.
  intros Himp HQ Hs. induction Hs as [|x l Hs IH Hx]; [constructor|].
  apply list.Forall_cons in HQ as [Hqx HQ]. constructor; [by apply IH|].
  rewrite list.Forall_forall in Hx, HQ |- *. intros y Hy.
  apply Himp; auto.
Qed.

(** Within a track the chord events are in time order. *)
Lemma chords_of_track_time_sorted (idx : nat) (track : list msg) :
  Forall (λ m, 0 <= msg_time m) track →
  StronglySorted (λ e e', ce_time e <= ce_time e') (chords_of_track idx track).
Proof.
  intros Htimes.
  set (t0 := λ _ : Z, Return (Q2Qc 0)).
  destruct (run_returns t0 id idx track (TrackState 0 ∅ World.blank))
    as [st Hst].
  { intros t tempo _. by eexists. }
  pose proof (track_chords_by_position _ _ _ _ _ _ Hst) as Hc. simpl in Hc.
  rewrite <- Hc.
  refine (proj1 (for_each_invariant_in _
    (λ st, StronglySorted (λ e e', ce_time e <= ce_time e')
             (chord_progression (st_analysis st)) ∧
           Forall (λ e, ce_time e <= current_time st)
             (chord_progression (st_analysis st)))
    _ _ _ _ _ Hst)); [|split; constructor].
  intros s m s' Hm [Hsorted Hbound] Hstep.
  rewrite list.Forall_forall in Htimes. specialize (Htimes m Hm).
  rewrite (track_step_chords _ _ _ _ _ _ Hstep).
  pose proof (track_step_time _ _ _ _ _ _ Hstep) as Htime.
  assert (Forall (λ e, ce_time e <= current_time s')
            (chord_progression (st_analysis s))) as Hbound'.
  { eapply Forall_impl; [exact Hbound|]. intros e He. simpl in He. lia. }
  destruct m; rewrite ?app_nil_r; try done.
  case_decide; rewrite ?app_nil_r; [|done]. split.
  - apply StronglySorted_app. split; [|split; [done|repeat constructor]].
    intros x1 x2 Hx1 ->%list_elem_of_singleton. simpl.
    rewrite list.Forall_forall in Hbound'. by apply Hbound'.
  - apply Forall_app. split; [done|]. by repeat constructor.
Qed.

Lemma chords_of_track_idx (idx : nat) (track : list msg) :
  Forall (λ e, ce_track e = idx) (chords_of_track idx track).
Proof.
  apply list.Forall_forall. intros e He.
  by apply elem_of_chords_of_track in He as (i & t & n & v & _ & _ & _ & ->).
Qed.

Lemma chords_of_tracks_idx (tracks : list (list msg)) (first : nat) :
  Forall (λ e, (first ≤ ce_track e)%nat) (chords_of_tracks first tracks).
Proof.
  apply list.Forall_forall. intros e He.
  apply elem_of_chords_of_tracks in He as (j & track & _ & He).
  pose proof (chords_of_track_idx (first + j) track) as Hidx.
  rewrite list.Forall_forall in Hidx. rewrite (Hidx e He). lia.
Qed.

Lemma chords_of_tracks_by_track (tracks : list (list msg)) (first : nat) :
  StronglySorted (λ e e', (ce_track e ≤ ce_track e')%nat)
    (chords_of_tracks first tracks).
Proof.
  revert first; induction tracks as [|track tracks IH]; intros first; simpl.
  - constructor.
  - pose proof (chords_of_track_idx first track) as H1.
    pose proof (chords_of_tracks_idx tracks (S first)) as H2.
    rewrite list.Forall_forall in H1, H2.
    apply StronglySorted_app. split; [|split; [|apply IH]].
    + intros x1 x2 Hx1 Hx2. rewrite (H1 x1 Hx1). specialize (H2 x2 Hx2). lia.
    + clear IH H2. induction (chords_of_track first track) as [|e l IHl];
        constructor.
      * apply IHl. intros x Hx. apply H1. by right.
      * apply list.Forall_forall. intros y Hy.
        rewrite (H1 e), (H1 y); [done|by right|left].
Qed.

Lemma chords_of_tracks_sorted (tracks : list (list msg)) (first : nat) :
  times_ok tracks →
  StronglySorted chord_before (chords_of_tracks first tracks).
Proof.
  unfold times_ok. intros Htimes. revert first.
  induction Htimes as [|track tracks Ht _ IH]; intros first; simpl.
  - constructor.
  - pose proof (chords_of_track_idx first track) as H1.
    pose proof (chords_of_tracks_idx tracks (S first)) as H2.
    apply StronglySorted_app. split; [|split; [|apply IH]].
    + rewrite list.Forall_forall in H1, H2. intros x1 x2 Hx1 Hx2. left.
      rewrite (H1 x1 Hx1). specialize (H2 x2 Hx2). simpl in H2. lia.
    + eapply StronglySorted_weaken;
        [|exact H1|by apply chords_of_track_time_sorted].
      intros x y Hx Hy Hxy. right. simpl in *. split; [congruence|done].
Qed.

Section Order.

Variable tempo2bpm : Z -> result Qc.
Variable round2 : Qc -> Qc.

(** X23: the chord progression of an analysed file lists the events track
    by track, in the order of the tracks; when no message has a negative
    delta time, the events of each track are in time order as well. *)
Theorem chord_progression_order (basename : string) (m : MidiFile)
  (a : analysis) :
  analyze_chord_midi tempo2bpm round2 basename (Return m) = AnalysisOk a →
  StronglySorted (λ e e', (ce_track e ≤ ce_track e')%nat) (chord_progression a) ∧
  Forall (λ e, (ce_track e < num_tracks a)%nat) (chord_progression a) ∧
  (times_ok (mid_tracks m) → StronglySorted chord_before (chord_progression a)).
Proof.
  intros H.
  apply analyze_ok_inv in H as (m' & len & a1 & [= <-] & _ & Hrun & ->).
  pose proof (analyze_tracks_chords _ _ _ _ _ _ Hrun) as Hc.
  destruct (analyze_tracks_header _ _ _ _ _ _ Hrun) as (_ & _ & Hn & _).
  simpl in *. rewrite Hc, Hn.
  split; [apply chords_of_tracks_by_track|].
  split; [|apply chords_of_tracks_sorted].
  apply list.Forall_forall. intros e He.
  apply elem_of_chords_of_tracks in He as (j & track & Hj & He).
  pose proof (chords_of_track_idx (0 + j) track) as Hidx.
  rewrite list.Forall_forall in Hidx. rewrite (Hidx e He).
  apply lookup_lt_Some in Hj. simpl. lia.
Qed.

End Order.

(** * More of the theorems at work on the small world *)

Section MoreInstances.

#[local] Open Scope string_scope.

Lemma triad_analysed :
  analyze_chord_midi World.tempo2bpm World.round2 "triad.mid"
    (Return World.triad_mid) = AnalysisOk World.triad_analysis.
Proof. vm_compute. reflexivity. Defined.

Lemma world_processed :
  process_chord_sets World.file World.tempo2bpm World.round2 World.parse_midi
    World.json_dump World.self "/home/runner" World.midi_files World.fs0 =
  Return (World.catalog_out, World.fs_out).
Proof. vm_compute. reflexivity. Defined.

Lemma world_catalog_file :
  World.fs_out !! catalog_path World.self = Some (World.JsonBytes World.catalog_out).
Proof. vm_compute. reflexivity. Defined.

Lemma analysis_chords_by_track_triad :
  chord_progression World.triad_analysis =
  chords_of_tracks 0 (mid_tracks World.triad_mid).
Proof.
  exact (proj1 (analysis_chords_by_track World.tempo2bpm World.round2
                  "triad.mid" World.triad_mid World.triad_analysis
                  triad_analysed)).
Defined.

Lemma chord_count_bound_triad :
  (List.length (chord_progression World.triad_analysis) ≤
   chord_bound (mid_tracks World.triad_mid))%nat.
Proof.
  exact (proj1 (chord_count_bound World.tempo2bpm World.round2
                  "triad.mid" World.triad_mid World.triad_analysis
                  triad_analysed)).
Defined.

Lemma chord_event_origin_triad :
  ∃ track i t n v,
    mid_tracks World.triad_mid !! 0%nat = Some track ∧
    track !! i = Some (note_on t n v) ∧ 0 < v ∧
    n ∈ [60; 64; 67] ∧
    0 = elapsed (take (S i) track) ∧
    ∀ p, p ∈ [60; 64; 67] ↔ unmatched_note_on p (take (S i) track).
Proof.
  apply (chord_event_origin World.tempo2bpm World.round2 "triad.mid"
           World.triad_mid World.triad_analysis (ChordEvent 0 [60; 64; 67] 0)
           triad_analysed).
  apply list_elem_of_In. vm_compute. left. reflexivity.
Defined.

Lemma estimates_from_first_messages_triad :
  estimated_key World.triad_analysis = Some "C".
Proof.
  exact (proj2 (estimates_from_first_messages World.tempo2bpm World.round2
                  "triad.mid" World.triad_mid World.triad_analysis
                  triad_analysed)).
Defined.

Lemma chord_progression_order_triad :
  StronglySorted chord_before (chord_progression World.triad_analysis).
Proof.
  refine (proj2 (proj2 (chord_progression_order World.tempo2bpm World.round2
                          "triad.mid" World.triad_mid World.triad_analysis
                          triad_analysed)) _).
  unfold times_ok. repeat constructor; vm_compute; discriminate.
Defined.

Lemma tempo_estimates_agree_triad :
  (first_tempo (mid_tracks World.triad_mid) = None ∧
   estimated_tempo World.triad_analysis = Some (Q2Qc 120) ∧
   Midi._extract_tempo World.tempo2bpm (mid_tracks World.triad_mid) =
     Return 120) ∨
  (∃ tempo bpm,
     first_tempo (mid_tracks World.triad_mid) = Some tempo ∧
     World.tempo2bpm tempo = Return bpm ∧
     estimated_tempo World.triad_analysis = Some (World.round2 bpm) ∧
     Midi._extract_tempo World.tempo2bpm (mid_tracks World.triad_mid) =
       Return (Midi.int bpm)).
Proof.
  exact (tempo_estimates_agree World.tempo2bpm World.round2 "triad.mid"
           World.triad_mid World.triad_analysis triad_analysed).
Defined.

Lemma extract_tempo_first_late :
  Midi._extract_tempo World.tempo2bpm
    [([note_on 0 60 64] ++ set_tempo 5 500000 :: [set_tempo 9 600000])%list] =
  do bpm <- World.tempo2bpm 500000; Return (Midi.int bpm).
Proof.
  exact (proj2 (proj2 (extract_tempo_first World.tempo2bpm
                         [([note_on 0 60 64] ++ set_tempo 5 500000 ::
                           [set_tempo 9 600000])%list]))
           [note_on 0 60 64] 5 500000 [set_tempo 9 600000] [] eq_refl).
Defined.

Lemma catalog_records_produced_world :
  ∃ records,
    chord_sets World.catalog_out = Some records ∧
    Forall (produced_from World.self World.midi_files) records ∧
    map original_path records `sublist_of` map mp_path World.midi_files ∧
    Forall (λ r, is_Some (World.fs_out !! storage_path r)) records ∧
    (List.length records ≤ total_files World.catalog_out)%nat.
Proof.
  exact (catalog_records_produced World.file World.tempo2bpm World.round2
           World.parse_midi World.json_dump World.self "/home/runner"
           World.midi_files World.fs0 World.fs_out World.catalog_out
           world_processed).
Defined.

Lemma catalog_index_consistent_world :
  ∃ records,
    chord_sets World.catalog_out = Some records ∧
    (∀ k, categories World.catalog_out !! k = index_entry k records) ∧
    (∀ k l, categories World.catalog_out !! k = Some l →
            l = in_category k records ∧ l ≠ [] ∧ k ∈ Cli.categories).
Proof.
  exact (catalog_index_consistent World.file World.tempo2bpm World.round2
           World.parse_midi World.json_dump World.self "/home/runner"
           World.midi_files World.fs0 World.fs_out World.catalog_out
           world_processed).
Defined.

Lemma category_filter_substring_world :
  ∃ kept,
    get_chord_sets_by_category World.file World.json_load World.self
      (Some "simple") None World.fs_out = Return kept ∧
    (∀ r, r ∈ kept ↔
          r ∈ default [] (chord_sets World.catalog_out) ∧
          (str_truthy (Some "simple") = true → category_has "simple" r)) ∧
    (str_truthy (Some "simple") = true →
     Forall (λ r, is_Some (category r)) kept) ∧
    (str_truthy (Some "simple") = false →
     kept = default [] (chord_sets World.catalog_out)).
Proof.
  exact (category_filter_substring World.file World.json_load World.self
           (Some "simple") World.fs_out (World.JsonBytes World.catalog_out)
           World.catalog_out world_catalog_file eq_refl).
Defined.

Lemma category_listing_is_tempo_bucket_world :
  ∃ records,
    chord_sets World.catalog_out = Some records ∧
    get_chord_sets_by_category World.file World.json_load World.self
      (Some "slow") None World.fs_out =
      Return (List.filter
                (λ r, bool_decide (cs_estimated_tempo r < Q2Qc 80)%Qc) records) ∧
    get_chord_sets_by_category World.file World.json_load World.self
      (Some "fast") None World.fs_out =
      Return (List.filter
                (λ r, bool_decide (Q2Qc 140 < cs_estimated_tempo r)%Qc) records) ∧
    get_chord_sets_by_category World.file World.json_load World.self
      (Some "medium") None World.fs_out =
      Return (List.filter
                (λ r, bool_decide ((Q2Qc 80 <= cs_estimated_tempo r)%Qc ∧
                                   (cs_estimated_tempo r <= Q2Qc 140)%Qc))
                records).
Proof.
  exact (category_listing_is_tempo_bucket World.file World.tempo2bpm
           World.round2 World.parse_midi World.json_dump World.json_load
           World.self "/home/runner" World.midi_files World.fs0 World.fs_out
           World.catalog_out (λ doc, eq_refl) world_processed).
Defined.

(** [--list --tempo-min 0 --tempo-max 90] lists the triad, at 100 bpm. *)
Lemma main_list_tempo_range_world :
  ∃ all,
    get_chord_sets_by_category World.file World.json_load World.self
      None None World.fs_out = Return all ∧
    Cli.main World.file World.tempo2bpm World.round2 World.parse_midi
      World.json_dump World.json_load
      (Cli.Args false true None (Some 0) (Some 90)) "/home/runner"
      World.midi_files World.fs_out = Return (Cli.Listed all).
Proof.
  destruct (main_list_tempo_range World.file World.tempo2bpm World.round2
              World.parse_midi World.json_dump World.json_load
              None (Some 0) (Some 90) "/home/runner" World.midi_files
              World.fs_out (World.JsonBytes World.catalog_out)
              World.catalog_out world_catalog_file eq_refl)
    as (all & Hall & _ & Hzero & _).
  exists all. split; [exact Hall|exact Hzero].
Defined.

Lemma chord_symbol_prefix_closed_Am7 : _is_chord_symbol ("Am" ++ "7") = true.
Proof.
  exact (proj2 (chord_symbol_prefix_closed "Am" "7") eq_refl).
Defined.

Lemma zip_success_counts_notes :
  1%nat = List.length ["Text"] ∧ (1 ≤ 1)%nat ∧ "set" = stem Archive.run ∧
  "storage/midi/chord-sets/set_processed.json" =
  "storage/midi/chord-sets" ++ "/" ++ "set" ++ "_processed.json".
Proof.
  apply (zip_success_counts unit Archive.midi_chords Archive.json_load
           "storage/midi/chord-sets" Archive.run "set"
           "storage/midi/chord-sets/set_processed.json" 1
           (Metadata 1 ["Text"])).
  vm_compute. reflexivity.
Defined.

(** Running the processor once more on a file it has filed: source and
    target are the same path, and the run ends there. *)
Example same_file_ends_run :
  process_chord_sets World.file World.tempo2bpm World.round2 World.parse_midi
    World.json_dump World.self "/home/runner"
    [ {| mp_path :=
           "storage/midi/templates/chord-sets/medium-progressions/simple/triad.mid";
         mp_name := "triad.mid" |} ]
    World.fs_out =
  Raise (same_file_error
           "storage/midi/templates/chord-sets/medium-progressions/simple/triad.mid"
           "storage/midi/templates/chord-sets/medium-progressions/simple/triad.mid").
Proof. vm_compute. reflexivity. Qed.

End MoreInstances.
